(** * Stream utilities of the ESP-AT driver (esp_at_stream_util.ts)

    A shallow embedding of [multiFindUtil], [singleFindUtil] and
    [parseNumber], and the properties of their pattern-matching state.

    The serial port and the millisecond clock are the only things the
    functions observe.  Both are modelled as oracles: the list of values
    that successive calls of [input.runningTime()] return, and the list of
    buffers that successive calls of [serial.readBuffer] return.  Every
    function takes the world, pops what it reads and returns what is left. *)

From Stdlib Require Import ZArith Strings.Byte Strings.Ascii.
From stdpp Require Import base numbers list strings.

(** ** Bytes, buffers and strings *)

Abbreviation byte := Byte.byte.

#[global] Instance byte_eq_dec : EqDecision byte := Byte.byte_eq_dec.

(** A TypeScript string is kept as its UTF-8 byte sequence, which is what
    [Buffer.fromUTF8] hands to the matchers. *)
Definition fromUTF8 (s : string) : list byte := String.list_byte_of_string s.

(** [a === b] between two buffer reads.  A read outside the buffer is
    [undefined] ([None]); it equals no byte, and equals itself. *)
Definition strict_eq (x y : option byte) : bool := bool_decide (x = y).

(** ** The world: clock readings and serial reads still to come *)

Record World : Type := mkWorld {
  clock : list Z;            (* results of input.runningTime(), in call order *)
  rx : list (list byte)      (* results of serial.readBuffer(..), in call order *)
}.

(** What a call does: return a value, throw, or still be polling when the
    recorded readings run out. *)
Inductive Outcome (A : Type) : Type :=
| Returns (a : A) (w : World)
| Throws (msg : string) (w : World)
| Pending.

Arguments Returns {A} a w.
Arguments Throws {A} msg w.
Arguments Pending {A}.

(** State of a scan after some bytes: finished with a result, or still
    running with the matcher state. *)
Inductive Progress (R S : Type) : Type :=
| Done (r : R)
| Scanning (s : S).

Arguments Done {R S} r.
Arguments Scanning {R S} s.

(** ** Mismatch recovery (shared text of both matchers) *)

(** The [for (k = 0; k < offset; k++)] loop; the value of [k] when it is
    left.  [n] is the number of iterations still possible, [offset - k]. *)
Fixpoint compareLoop (byte_target : list byte) (offset_diff k n : nat) : nat :=
  match n with
  | O => k
  | S n' =>
      if strict_eq (byte_target !! k) (byte_target !! (k + offset_diff))
      then compareLoop byte_target offset_diff (S k) n'
      else k
  end.

(** The [while (offset > 0)] loop; the value of [offset] when it is left.
    The recursion is on [offset], which the loop decrements first. *)
Fixpoint backtrack (byte_target : list byte) (b : byte)
    (original_offset offset : nat) : nat :=
  match offset with
  | O => O
  | S o =>
      if negb (strict_eq (Some b) (byte_target !! o))
      then backtrack byte_target b original_offset o
      else if (o =? 0) then S o
      else
        let offset_diff := (original_offset - o) in
        let k := compareLoop byte_target offset_diff 0 o in
        if (k =? o) then S o
        else backtrack byte_target b original_offset o
  end.

(** ** singleFindUtil *)

Module Single.

(** Body of the [for i] loop for one byte [b = data[i]]. *)
Definition onByte (byte_target : list byte) (offset : nat) (b : byte)
    : Progress bool nat :=
  if strict_eq (Some b) (byte_target !! offset) then
    let offset := S offset in
    if (offset =? length byte_target) then Done true
    else Scanning offset
  else Scanning (backtrack byte_target b offset offset).

(** The [for i] loop over one buffer. *)
Fixpoint onData (byte_target : list byte) (offset : nat) (data : list byte)
    : Progress bool nat :=
  match data with
  | [] => Scanning offset
  | b :: data' =>
      match onByte byte_target offset b with
      | Done r => Done r
      | Scanning offset' => onData byte_target offset' data'
      end
  end.

(** The [do ... while (input.runningTime() < end_time)] loop. *)
Fixpoint poll (byte_target : list byte) (end_time : Z) (offset : nat)
    (clk : list Z) (reads : list (list byte)) {struct reads} : Outcome bool :=
  match reads with
  | [] => Pending
  | data :: reads' =>
      match onData byte_target offset data with
      | Done r => Returns r (mkWorld clk reads')
      | Scanning offset' =>
          match clk with
          | [] => Pending
          | now :: clk' =>
              if (now <? end_time)%Z
              then poll byte_target end_time offset' clk' reads'
              else Returns false (mkWorld clk' reads')
          end
      end
  end.

End Single.

Definition singleFindUtil (target : string) (timeout_ms : Z) (w : World)
    : Outcome bool :=
  if bool_decide (target = "") || (timeout_ms <? 0)%Z then
    Throws "Error: 'singleFindUtil' function, invalid parameters." w
  else
    let byte_target := fromUTF8 target in
    match clock w with
    | [] => Pending
    | now :: clk => Single.poll byte_target (now + timeout_ms)%Z 0 clk (rx w)
    end.

(** ** multiFindUtil *)

Module Multi.

(** The [for j] loop for one byte [b = data[i]], from index [j]; [n] is the
    number of patterns still to visit, [byte_targets.length - j].  On a
    mismatch with a positive offset the recovery loop runs on the local
    [offset]; the loop body ends there, and [offsets[j]] is assigned only
    in the matching branch. *)
Fixpoint onByteFrom (byte_targets : list (list byte)) (b : byte)
    (j n : nat) (offsets : list nat) : Progress nat (list nat) :=
  match n with
  | O => Scanning offsets
  | S n' =>
      let byte_target := default [] (byte_targets !! j) in
      let offset := default O (offsets !! j) in
      if strict_eq (Some b) (byte_target !! offset) then
        let offset := S offset in
        if (offset =? length byte_target) then Done j
        else onByteFrom byte_targets b (S j) n' (<[j := offset]> offsets)
      else if (offset =? 0) then onByteFrom byte_targets b (S j) n' offsets
      else
        let offset := backtrack byte_target b offset offset in
        onByteFrom byte_targets b (S j) n' offsets
  end.

Definition onByte (byte_targets : list (list byte)) (offsets : list nat)
    (b : byte) : Progress nat (list nat) :=
  onByteFrom byte_targets b 0 (length byte_targets) offsets.

(** The [for i] loop over one buffer. *)
Fixpoint onData (byte_targets : list (list byte)) (offsets : list nat)
    (data : list byte) : Progress nat (list nat) :=
  match data with
  | [] => Scanning offsets
  | b :: data' =>
      match onByte byte_targets offsets b with
      | Done j => Done j
      | Scanning offsets' => onData byte_targets offsets' data'
      end
  end.

(** The [do ... while (input.runningTime() < end_time)] loop. *)
Fixpoint poll (byte_targets : list (list byte)) (end_time : Z)
    (offsets : list nat) (clk : list Z) (reads : list (list byte))
    {struct reads} : Outcome Z :=
  match reads with
  | [] => Pending
  | data :: reads' =>
      match onData byte_targets offsets data with
      | Done j => Returns (Z.of_nat j) (mkWorld clk reads')
      | Scanning offsets' =>
          match clk with
          | [] => Pending
          | now :: clk' =>
              if (now <? end_time)%Z
              then poll byte_targets end_time offsets' clk' reads'
              else Returns (-1)%Z (mkWorld clk' reads')
          end
      end
  end.

End Multi.

Definition multiFindUtil (targets : list string) (timeout_ms : Z) (w : World)
    : Outcome Z :=
  if bool_decide (length targets = 0) || (timeout_ms <? 0)%Z then
    Throws "Error: 'multiFindUtil' function, invalid parameters." w
  else
    let byte_targets := fromUTF8 <$> targets in
    let offsets := replicate (length byte_targets) O in
    match clock w with
    | [] => Pending
    | now :: clk =>
        Multi.poll byte_targets (now + timeout_ms)%Z offsets clk (rx w)
    end.

(** ** parseNumber *)

(** A JavaScript number as [parseNumber] returns it.  A double holds
    every integer of magnitude below 2^53 exactly: [Num z].  An integer
    beyond that is rounded by the platform to a double (or to an
    infinity); to which is not settled here, and [Rounded z] stands for
    the value [z] is rounded to.
    (The two zeros of a double, equal under [===], are one [Num 0].) *)
Inductive number : Type :=
| NaN
| Num (z : Z)
| Rounded (z : Z).

(** [String.fromCharCode(data[0])]. *)
Definition fromCharCode (b : byte) : string :=
  String (Ascii.ascii_of_byte b) EmptyString.

(** The double that holds the integer [z]. *)
Definition toDouble (z : Z) : number :=
  if (Z.abs z <? 2 ^ 53)%Z then Num z else Rounded z.

(** The integer that a run of decimal digit characters denotes, after
    the digits already read into [acc]. *)
Fixpoint digitsValue (acc : Z) (s : string) : Z :=
  match s with
  | EmptyString => acc
  | String c s' =>
      digitsValue (10 * acc + (Z.of_N (Ascii.N_of_ascii c) - 48))%Z s'
  end.

(** [parseInt], the language's own, on the strings line 162 passes to it:
    an optional ["-"] followed by decimal digits.  Its result is the
    double for the integer they denote. *)
Definition parseInt (s : string) : number :=
  toDouble
    match s with
    | String "-"%char s' => (- digitsValue 0 s')%Z
    | _ => digitsValue 0 s
    end.

Module Parse.

(** The test of line 158. *)
Definition accepts (num_str char : string) : bool :=
  (bool_decide (char = "-") && bool_decide (num_str = ""))
  || (String.leb "0" char && String.leb char "9").

(** The [do ... while] loop of lines 151-166.  An empty read pauses and
    [continue]s, which goes to the loop test; so does an accepted byte. *)
Fixpoint poll (end_time : Z) (num_str : string) (clk : list Z)
    (reads : list (list byte)) {struct reads} : Outcome number :=
  match reads with
  | [] => Pending
  | data :: reads' =>
      let test (num_str : string) : Outcome number :=
        match clk with
        | [] => Pending
        | now :: clk' =>
            if (now <? end_time)%Z then poll end_time num_str clk' reads'
            else Returns NaN (mkWorld clk' reads')
        end in
      match data with
      | [] => test num_str
      | d0 :: _ =>
          let char := fromCharCode d0 in
          if accepts num_str char then test (num_str +:+ char)
          else if negb (bool_decide (num_str = ""))
                  && negb (bool_decide (num_str = "-"))
          then Returns (parseInt num_str) (mkWorld clk reads')
          else Returns NaN (mkWorld clk reads')
      end
  end.

End Parse.

Definition parseNumber (timeout_ms : Z) (w : World) : Outcome number :=
  if (timeout_ms <? 0)%Z then
    Throws "Error: 'parseNumber' function, invalid parameters." w
  else
    match clock w with
    | [] => Pending
    | now :: clk => Parse.poll (now + timeout_ms)%Z "" clk (rx w)
    end.

(** ** Vocabulary of the statements *)

(** [pattern[i .. j)]. *)
Definition slice (pattern : list byte) (i j : nat) : list byte :=
  take (j - i) (drop i pattern).

(** [o] is the largest number with property [P], or 0 when none has it. *)
Definition largest_or_zero (P : nat → Prop) (o : nat) : Prop :=
  (P o ∧ ∀ n, P n → n ≤ o) ∨ (o = 0 ∧ ∀ n, ¬ P n).

(** The test the recovery loop applies to the candidate index [c]
    (the value of [offset] after the decrement). *)
Definition fits (pattern : list byte) (b : byte) (original c : nat) : Prop :=
  pattern !! c = Some b ∧
  ∀ i, i < c → pattern !! i = pattern !! (i + (original - c)).

(** The new offset [o'] the recovery loop looks for: at most [offset], its
    last byte is [b], and the [o' - 1] bytes before it are the last
    [o' - 1] bytes of the matched run [pattern[0 .. offset)]. *)
Definition realigns (pattern : list byte) (b : byte) (offset o' : nat) : Prop :=
  1 ≤ o' ≤ offset ∧
  pattern !! (o' - 1) = Some b ∧
  slice pattern 0 (o' - 1) = slice pattern (offset - (o' - 1)) offset.

(** The recovery rule in the words of the specification: [o'] is below
    [offset], [pattern[o' - 1]] is [b], and the prefix [pattern[0 .. o')]
    is the suffix of [pattern[0 .. offset)] of the same length. *)
Definition realigns_as_specified (pattern : list byte) (b : byte)
    (offset o' : nat) : Prop :=
  1 ≤ o' < offset ∧
  pattern !! (o' - 1) = Some b ∧
  slice pattern 0 o' = slice pattern (offset - o') offset.

(** ** Prefixes of the pattern at the end of the consumed bytes *)

(** The first [n] bytes of the pattern are the last [n] bytes consumed. *)
Definition border (pattern consumed : list byte) (n : nat) : Prop :=
  n ≤ length pattern ∧ take n pattern `suffix_of` consumed.

Definition longest_border (pattern consumed : list byte) (o : nat) : Prop :=
  border pattern consumed o ∧ ∀ n, border pattern consumed n → n ≤ o.

(** The same length, computed: the first [n], counting down from the
    pattern's length, whose prefix ends the consumed bytes. *)
Fixpoint longest_below (pattern consumed : list byte) (n : nat) : nat :=
  match n with
  | O => O
  | S n' =>
      if bool_decide (take n pattern `suffix_of` consumed) then n
      else longest_below pattern consumed n'
  end.

Definition longest_prefix_suffix (pattern consumed : list byte) : nat :=
  longest_below pattern consumed (length pattern).

(** Pattern [j] matches [b] at its stored offset, and that was its last
    byte. *)
Definition completes (byte_targets : list (list byte)) (offsets : list nat)
    (b : byte) (j : nat) : Prop :=
  ∃ t o, byte_targets !! j = Some t ∧ offsets !! j = Some o ∧
         t !! o = Some b ∧ S o = length t.

(** The bytes carriage return, line feed. *)
Definition crlf : list byte := [Byte.x0d; Byte.x0a].

(** An ASCII digit. *)
Definition digit (b : byte) : Prop := (48 ≤ Byte.to_N b ≤ 57)%N.

(** The decimal value of a run of digits. *)
Definition decimal (ds : list byte) : Z :=
  foldl (λ acc d, 10 * acc + (Z.of_N (Byte.to_N d) - 48))%Z 0%Z ds.

(** The text that the bytes spell. *)
Fixpoint text (bs : list byte) : string :=
  match bs with
  | [] => ""
  | b :: bs' => String (ascii_of_byte b) (text bs')
  end.

(** Every byte of [bs] passes the test of line 158 in its turn, starting
    from the accumulated text [num_str]. *)
Fixpoint absorbed (num_str : string) (bs : list byte) : bool :=
  match bs with
  | [] => true
  | b :: bs' =>
      Parse.accepts num_str (fromCharCode b)
      && absorbed (num_str +:+ fromCharCode b) bs'
  end.

(** The value of a run of digits after the sign bytes [sign]. *)
Definition signed (sign : list byte) (v : Z) : Z :=
  match sign with
  | [] => v
  | _ :: _ => (- v)%Z
  end.

(** ** skipNext *)

Module Skip.

(** The [do ... while] loop of lines 128-133: the first read that brings
    a byte decides; [Buffer.fromUTF8(target)[0]] is the byte compared. *)
Fixpoint poll (target : string) (end_time : Z) (clk : list Z)
    (reads : list (list byte)) {struct reads} : Outcome bool :=
  match reads with
  | [] => Pending
  | data :: reads' =>
      match data with
      | d0 :: _ =>
          Returns (strict_eq (Some d0) (fromUTF8 target !! 0))
            (mkWorld clk reads')
      | [] =>
          match clk with
          | [] => Pending
          | now :: clk' =>
              if (now <? end_time)%Z then poll target end_time clk' reads'
              else Returns false (mkWorld clk' reads')
          end
      end
  end.

End Skip.

Definition skipNext (target : string) (timeout_ms : Z) (w : World)
    : Outcome bool :=
  if bool_decide (target = "") || (timeout_ms <? 0)%Z then
    Throws "Error: 'skipNext' function, invalid parameters." w
  else
    match clock w with
    | [] => Pending
    | now :: clk => Skip.poll target (now + timeout_ms) clk (rx w)
    end.

(** ** The command layer: writeCommand and two of its callers *)

(** The text carriage return, line feed. *)
Definition CRLF : string :=
  String (ascii_of_byte Byte.x0d) (String (ascii_of_byte Byte.x0a) "").

(** The targets of [writeCommand], line 41: the caller's, then the two
    answers that mean failure. *)
Definition failureTargets : list string :=
  [CRLF +:+ "ERROR" +:+ CRLF; "busy p..." +:+ CRLF].

Definition commandTargets (success_target : string) : list string :=
  success_target :: failureTargets.

(** The answer the callers modelled here wait for. *)
Definition okTarget : string := CRLF +:+ "OK" +:+ CRLF.

(** [writeCommand].  [tx] is the log of the strings handed to
    [serial.writeString]; the call returns it beside its outcome. *)
Definition writeCommand (command success_target : string) (timeout_ms : Z)
    (tx : list string) (w : World) : Outcome bool * list string :=
  if bool_decide (command = "") || bool_decide (success_target = "")
     || (timeout_ms <? 0)%Z then
    (Throws "Error: 'writeCommand' function, invalid parameters." w, tx)
  else
    let targets := commandTargets success_target in
    let tx := tx ++ [command +:+ CRLF] in
    (match multiFindUtil targets timeout_ms w with
     | Returns r w' => Returns (bool_decide (r = 0%Z)) w'
     | Throws msg w' => Throws msg w'
     | Pending => Pending
     end, tx).

(** The double quote, which a string literal here cannot hold. *)
Definition quote : string := String (ascii_of_byte Byte.x22) "".

(** [wifiConnect]. *)
Definition wifiConnect (ssid password : string) (tx : list string)
    (w : World) : Outcome unit * list string :=
  let command :=
    "AT+CWJAP=" +:+ quote +:+ ssid +:+ quote +:+ ","
    +:+ quote +:+ password +:+ quote in
  match writeCommand command okTarget 15000 tx w with
  | (Returns ok w', tx') =>
      if negb ok then (Throws "Error: WiFi connection failed." w', tx')
      else (Returns tt w', tx')
  | (Throws msg w', tx') => (Throws msg w', tx')
  | (Pending, tx') => (Pending, tx')
  end.

(** [mqttDisconnect]. *)
Definition mqttDisconnect (tx : list string) (w : World)
    : Outcome unit * list string :=
  match writeCommand "AT+MQTTCLEAN=0" okTarget 500 tx w with
  | (Returns ok w', tx') =>
      if negb ok then (Throws "Error: MQTT disconnect failed." w', tx')
      else (Returns tt w', tx')
  | (Throws msg w', tx') => (Throws msg w', tx')
  | (Pending, tx') => (Pending, tx')
  end.

(** The answer [cancelSend] waits for. *)
Definition cancelReply : string := CRLF +:+ "SEND Canceled" +:+ CRLF.

(** [cancelSend].  [basic.pause(30)] leaves the world as it is (the clock
    readings are whatever they are); [serial.readString()] takes the next
    serial read and drops it. *)
Definition cancelSend (tx : list string) (w : World)
    : Outcome unit * list string :=
  let tx := tx ++ ["+++"] in
  match singleFindUtil cancelReply 500 w with
  | Returns found w' =>
      if negb found then
        let tx := tx ++ [CRLF] in
        match rx w' with
        | [] => (Pending, tx)
        | _ :: reads' =>
            (Throws "Error: module cancel send failed."
               (mkWorld (clock w') reads'), tx)
        end
      else (Returns tt w', tx)
  | Throws msg w' => (Throws msg w', tx)
  | Pending => (Pending, tx)
  end.

(** ** Vocabulary of the further statements *)

(** The pattern lies in the bytes, contiguously. *)
Definition occurs (pattern bs : list byte) : Prop :=
  ∃ pre post, bs = pre ++ pattern ++ post.

(** Whether the bytes of [t] lie in [bs] in order, not necessarily
    side by side: the first of [t] is looked for, then the next after it. *)
Fixpoint in_order (t bs : list byte) : bool :=
  match t, bs with
  | [], _ => true
  | _ :: _, [] => false
  | x :: t', b :: bs' =>
      if bool_decide (x = b) then in_order t' bs' else in_order t bs'
  end.

(** * Lemmas *)

(** ** The recovery loop *)

Section Recovery.
Variable pattern : list byte.
Variable b : byte.

Lemma strict_eq_true x y : strict_eq x y = true ↔ x = y.
Proof. unfold strict_eq. apply bool_decide_eq_true. Qed.

Lemma strict_eq_false x y : strict_eq x y = false ↔ x ≠ y.
Proof. unfold strict_eq. apply bool_decide_eq_false. Qed.

Lemma compareLoop_full offset_diff n : ∀ k,
  compareLoop pattern offset_diff k n = k + n ↔
  ∀ i, k ≤ i < k + n → pattern !! i = pattern !! (i + offset_diff).
Proof.
  induction n as [|n IH]; intros k; simpl.
  - split; [intros _ i Hi; lia | intros _; lia].
  - destruct (strict_eq _ _) eqn:E.
    + apply strict_eq_true in E.
      replace (k + S n) with (S k + n) by lia. rewrite IH. split.
      * intros H i Hi. destruct (decide (i = k)) as [->|]; [done|].
        apply H. lia.
      * intros H i Hi. apply H. lia.
    + apply strict_eq_false in E. split; [lia|].
      intros H. destruct E. apply H. lia.
Qed.

Lemma compareLoop_fits original c :
  pattern !! c = Some b →
  (compareLoop pattern (original - c) 0 c =? c) = true ↔
  fits pattern b original c.
Proof.
  intros Hb. rewrite Nat.eqb_eq.
  pose proof (compareLoop_full (original - c) c 0) as H. simpl in H.
  rewrite H. unfold fits. split.
  - intros Hk. split; [done|]. intros i Hi. apply Hk. lia.
  - intros [_ Hk] i Hi. apply Hk. lia.
Qed.

(** What the [while] loop leaves in [offset]: one more than the highest
    candidate below the starting value that fits, or 0. *)
Lemma backtrack_spec original : ∀ offset,
  match backtrack pattern b original offset with
  | O => ∀ c, c < offset → ¬ fits pattern b original c
  | S c => c < offset ∧ fits pattern b original c ∧
           ∀ c', c < c' < offset → ¬ fits pattern b original c'
  end.
Proof.
  induction offset as [|o IH]; simpl.
  - intros c Hc; lia.
  - assert (Hskip : ¬ fits pattern b original o →
      match backtrack pattern b original o with
      | O => ∀ c, c < S o → ¬ fits pattern b original c
      | S c => c < S o ∧ fits pattern b original c ∧
               ∀ c', c < c' < S o → ¬ fits pattern b original c'
      end).
    { intros Hno. destruct (backtrack pattern b original o) as [|c].
      - intros c Hc. destruct (decide (c = o)) as [->|]; [done|].
        apply IH. lia.
      - destruct IH as (Hlt & Hfit & Hmax).
        split; [lia|]. split; [done|].
        intros c' Hc'. destruct (decide (c' = o)) as [->|]; [done|].
        apply Hmax. lia. }
    destruct (strict_eq (Some b) (pattern !! o)) eqn:E; simpl.
    + apply strict_eq_true in E. symmetry in E.
      destruct (o =? 0) eqn:E0.
      * apply Nat.eqb_eq in E0. subst o.
        split; [lia|]. split; [|intros c' Hc'; lia].
        split; [done|]. intros i Hi; lia.
      * destruct (compareLoop pattern (original - o) 0 o =? o) eqn:Ek.
        -- apply compareLoop_fits in Ek; [|done].
           split; [lia|]. split; [done|]. intros c' Hc'; lia.
        -- apply Hskip. intros Hfit.
           apply compareLoop_fits in Hfit; [|done]. congruence.
    + apply strict_eq_false in E. apply Hskip. intros [Hb _]. congruence.
Qed.

(** On a matched run inside the pattern the loop's test is the
    comparison of the two slices. *)
Lemma fits_realigns offset c :
  offset ≤ length pattern → c < offset →
  fits pattern b offset c ↔ realigns pattern b offset (S c).
Proof.
  intros Hlen Hc. unfold fits, realigns, slice.
  replace (S c - 1) with c by lia.
  replace (c - 0) with c by lia.
  replace (offset - (offset - c)) with c by lia.
  rewrite drop_0. split.
  - intros [Hb Hk]. split; [lia|]. split; [done|].
    apply list_eq_same_length with c.
    + rewrite length_take, length_drop. lia.
    + rewrite length_take. lia.
    + intros i x y Hi. rewrite !lookup_take_lt, lookup_drop by done.
      rewrite Hk by done. replace (offset - c + i) with (i + (offset - c)) by lia.
      congruence.
  - intros (_ & Hb & Heq). split; [done|]. intros i Hi.
    apply (f_equal (λ l, l !! i)) in Heq.
    rewrite !lookup_take_lt, lookup_drop in Heq by done.
    rewrite Heq. f_equal. lia.
Qed.

Lemma backtrack_largest offset :
  offset ≤ length pattern →
  largest_or_zero (realigns pattern b offset)
    (backtrack pattern b offset offset).
Proof.
  intros Hlen. pose proof (backtrack_spec offset offset) as H.
  destruct (backtrack pattern b offset offset) as [|c].
  - right. split; [done|]. intros n Hn.
    destruct n as [|c]; [destruct Hn as [? _]; lia|].
    assert (c < offset) by (destruct Hn as [? _]; lia).
    apply (H c); [done|]. by apply fits_realigns.
  - destruct H as (Hc & Hfit & Hmax). left. split.
    + by apply fits_realigns.
    + intros n Hn. destruct n as [|c']; [lia|].
      assert (c' < offset) by (destruct Hn as [? _]; lia).
      destruct (decide (c' ≤ c)); [lia|]. exfalso.
      apply (Hmax c'); [lia|]. by apply fits_realigns.
Qed.
End Recovery.

Section Borders.
Variable pattern : list byte.

Lemma border_0 consumed : border pattern consumed 0.
Proof. split; [lia|]. simpl. apply suffix_nil. Qed.

Lemma longest_below_spec consumed n :
  n ≤ length pattern →
  border pattern consumed (longest_below pattern consumed n) ∧
  ∀ m, m ≤ n → border pattern consumed m →
       m ≤ longest_below pattern consumed n.
Proof.
  induction n as [|n IH]; intros Hn.
  - split; [apply border_0|]. intros m Hm _. simpl. lia.
  - cbn [longest_below]. case_bool_decide as Hs.
    + split; [by split|]. intros m Hm _. lia.
    + destruct IH as [IH1 IH2]; [lia|]. split; [done|].
      intros m Hm Hb. destruct (decide (m = S n)) as [->|].
      * destruct Hb as [_ Hb]. done.
      * apply IH2; [lia|done].
Qed.

Lemma longest_prefix_suffix_spec consumed :
  longest_border pattern consumed (longest_prefix_suffix pattern consumed).
Proof.
  unfold longest_prefix_suffix.
  destruct (longest_below_spec consumed (length pattern)) as [H1 H2]; [lia|].
  split; [done|]. intros n Hn. apply H2; [apply Hn|done].
Qed.

Lemma longest_border_unique consumed o1 o2 :
  longest_border pattern consumed o1 → longest_border pattern consumed o2 →
  o1 = o2.
Proof.
  intros [B1 M1] [B2 M2]. apply M1 in B2. apply M2 in B1. lia.
Qed.

(** Appending a byte: a border one longer, ending in that byte. *)
Lemma border_snoc consumed b n :
  border pattern (consumed ++ [b]) (S n) ↔
  pattern !! n = Some b ∧ border pattern consumed n.
Proof.
  unfold border. split.
  - intros [Hlen Hsuf].
    destruct (lookup_lt_is_Some_2 pattern n) as [x Hx]; [lia|].
    rewrite (take_S_r _ _ _ Hx) in Hsuf.
    pose proof (suffix_snoc_inv_1 _ _ _ _ Hsuf) as ->.
    apply suffix_snoc_inv_2 in Hsuf. split; [done|]. split; [lia|done].
  - intros [Hx [Hlen Hsuf]]. apply lookup_lt_Some in Hx as Hn.
    split; [lia|]. rewrite (take_S_r _ _ _ Hx). by apply suffix_snoc.
Qed.

Lemma suffix_take_pointwise o c :
  o ≤ length pattern → c ≤ o →
  take c pattern `suffix_of` take o pattern ↔
  ∀ i, i < c → pattern !! i = pattern !! (i + (o - c)).
Proof.
  intros Ho Hc. split.
  - intros [k Hk] i Hi.
    assert (Hlk : length k = o - c).
    { apply (f_equal length) in Hk.
      rewrite length_app, !length_take in Hk.
      rewrite !Nat.min_l in Hk by lia. lia. }
    apply (f_equal (λ l, l !! (i + (o - c)))) in Hk.
    rewrite lookup_take_lt in Hk by lia.
    rewrite lookup_app_r in Hk by lia.
    rewrite Hlk in Hk. replace (i + (o - c) - (o - c)) with i in Hk by lia.
    rewrite lookup_take_lt in Hk by lia. done.
  - intros Hpt. exists (take (o - c) pattern).
    apply list_eq_same_length with o.
    + rewrite length_app, !length_take. lia.
    + rewrite length_take. lia.
    + intros i x y Hi. rewrite lookup_take_lt by done.
      destruct (decide (i < o - c)).
      * rewrite lookup_app_l by (rewrite length_take; lia).
        rewrite lookup_take_lt by done. congruence.
      * rewrite lookup_app_r by (rewrite length_take; lia).
        rewrite length_take, Nat.min_l by lia.
        rewrite lookup_take_lt by lia. rewrite (Hpt (i - (o - c))) by lia.
        replace (i - (o - c) + (o - c)) with i by lia. congruence.
Qed.

(** Below a known border, being a border is a comparison inside the
    pattern. *)
Lemma border_within consumed o c :
  border pattern consumed o → c ≤ o →
  border pattern consumed c ↔
  ∀ i, i < c → pattern !! i = pattern !! (i + (o - c)).
Proof.
  intros [Ho Hso] Hc. rewrite <- suffix_take_pointwise by done. split.
  - intros [_ Hsc].
    destruct (suffix_weak_total _ _ _ Hsc Hso) as [H|H]; [done|].
    apply suffix_length in H. rewrite !length_take in H.
    replace c with o by lia. done.
  - intros H. split; [lia|]. by etrans.
Qed.

Lemma fits_border consumed b o c :
  border pattern consumed o → c < o →
  fits pattern b o c ↔ border pattern (consumed ++ [b]) (S c).
Proof.
  intros Hb Hc. rewrite border_snoc. unfold fits.
  rewrite (border_within consumed o c) by (done || lia). done.
Qed.
End Borders.

(** ** The single-pattern scan keeps the longest border *)

Section SingleScan.
Variable pattern : list byte.

Lemma single_onByte_border consumed o b :
  longest_border pattern consumed o → o < length pattern →
  match Single.onByte pattern o b with
  | Done r => r = true ∧ longest_border pattern (consumed ++ [b]) (length pattern)
  | Scanning o' => o' < length pattern ∧ longest_border pattern (consumed ++ [b]) o'
  end.
Proof.
  intros [Hbo Hmax] Ho. unfold Single.onByte.
  assert (Hup : ∀ n, border pattern (consumed ++ [b]) (S n) → n ≤ o).
  { intros n Hn. apply border_snoc in Hn as [_ Hn]. by apply Hmax. }
  destruct (strict_eq (Some b) (pattern !! o)) eqn:E.
  - apply strict_eq_true in E. symmetry in E.
    assert (Hnew : longest_border pattern (consumed ++ [b]) (S o)).
    { split; [by apply border_snoc|].
      intros [|n] Hn; [lia|]. apply Hup in Hn. lia. }
    cbn zeta. destruct (S o =? length pattern) eqn:El.
    + apply Nat.eqb_eq in El. rewrite <- El. done.
    + apply Nat.eqb_neq in El. split; [lia|done].
  - apply strict_eq_false in E.
    pose proof (backtrack_spec pattern b o o) as Hbt.
    destruct (backtrack pattern b o o) as [|c].
    + split; [lia|]. split; [apply border_0|].
      intros [|n] Hn; [lia|]. exfalso.
      pose proof (Hup _ Hn) as Hle.
      assert (n ≠ o).
      { intros ->. apply border_snoc in Hn as [Hn _]. congruence. }
      apply (Hbt n); [lia|]. apply (fits_border _ consumed); [done|lia|done].
    + destruct Hbt as (Hc & Hfit & Hnone). split; [lia|]. split.
      * by apply (fits_border _ consumed b o c).
      * intros [|n] Hn; [lia|].
        pose proof (Hup _ Hn) as Hle.
        assert (n ≠ o).
        { intros ->. apply border_snoc in Hn as [Hn _]. congruence. }
        destruct (decide (n ≤ c)); [lia|]. exfalso.
        apply (Hnone n); [lia|].
        apply (fits_border _ consumed); [done|lia|done].
Qed.

(** The state after any run of bytes that has not completed the pattern
    is the length of the longest prefix of the pattern that ends the
    bytes consumed; a completed scan has seen the whole pattern. *)
Lemma single_onData_border data : ∀ consumed o,
  longest_border pattern consumed o → o < length pattern →
  match Single.onData pattern o data with
  | Done r =>
      r = true ∧ ∃ pre post, data = pre ++ post ∧
        longest_border pattern (consumed ++ pre) (length pattern)
  | Scanning o' =>
      o' < length pattern ∧ longest_border pattern (consumed ++ data) o'
  end.
Proof.
  induction data as [|b data IH]; intros consumed o Hlb Ho; simpl.
  - rewrite app_nil_r. done.
  - pose proof (single_onByte_border consumed o b Hlb Ho) as Hstep.
    destruct (Single.onByte pattern o b) as [r|o'].
    + destruct Hstep as [-> Hfull]. split; [done|].
      exists [b], data. done.
    + destruct Hstep as [Ho' Hlb'].
      specialize (IH (consumed ++ [b]) o' Hlb' Ho').
      destruct (Single.onData pattern o' data) as [r|o''].
      * destruct IH as (-> & pre & post & -> & Hfull). split; [done|].
        exists (b :: pre), post. split; [done|].
        by rewrite <- app_assoc in Hfull.
      * by rewrite <- app_assoc in IH.
Qed.

Lemma single_onData_app d1 d2 o :
  Single.onData pattern o (d1 ++ d2) =
  match Single.onData pattern o d1 with
  | Done r => Done r
  | Scanning o' => Single.onData pattern o' d2
  end.
Proof.
  revert o. induction d1 as [|b d1 IH]; intros o; simpl; [done|].
  destruct (Single.onByte pattern o b); [done|]. apply IH.
Qed.

Lemma longest_border_start : longest_border pattern [] 0.
Proof.
  split; [apply border_0|]. intros n [Hle Hn].
  apply suffix_nil_inv in Hn. apply (f_equal length) in Hn.
  rewrite length_take in Hn. simpl in Hn. lia.
Qed.

(** Once the pattern has gone by, the scan has completed. *)
Lemma single_onData_occurrence pre post :
  0 < length pattern →
  Single.onData pattern 0 (pre ++ pattern ++ post) = Done true.
Proof.
  intros Hne. rewrite app_assoc, single_onData_app.
  pose proof (single_onData_border (pre ++ pattern) [] 0
                longest_border_start Hne) as H.
  destruct (Single.onData pattern 0 (pre ++ pattern)) as [r|o].
  - by destruct H as [-> _].
  - destruct H as [Ho [_ Hmax]]. simpl in Hmax.
    assert (border pattern (pre ++ pattern) (length pattern)) as Hb.
    { split; [done|]. rewrite firstn_all. by apply suffix_app_r. }
    apply Hmax in Hb. lia.
Qed.
End SingleScan.

(** ** One byte through the pattern list *)

Section MultiScan.
Variable byte_targets : list (list byte).

Lemma completes_insert_ne offsets b i j v :
  i ≠ j →
  completes byte_targets (<[j := v]> offsets) b i ↔
  completes byte_targets offsets b i.
Proof.
  intros Hne. unfold completes.
  by rewrite list_lookup_insert_ne.
Qed.

Lemma multi_onByteFrom_spec b n : ∀ j offsets,
  j + n = length byte_targets → length offsets = length byte_targets →
  match Multi.onByteFrom byte_targets b j n offsets with
  | Done i =>
      j ≤ i ∧ completes byte_targets offsets b i ∧
      ∀ i', j ≤ i' < i → ¬ completes byte_targets offsets b i'
  | Scanning offsets' =>
      length offsets' = length offsets ∧
      (∀ i, j ≤ i → ¬ completes byte_targets offsets b i) ∧
      ∀ i t o, byte_targets !! i = Some t → offsets !! i = Some o →
        offsets' !! i =
          Some (if decide (j ≤ i ∧ t !! o = Some b) then S o else o)
  end.
Proof.
  induction n as [|n IH]; intros j offsets Hjn Hlen.
  - simpl. split; [done|]. split.
    + intros i Hi (t & o & Ht & _). apply lookup_lt_Some in Ht. lia.
    + intros i t o Ht Ho. apply lookup_lt_Some in Ht as Hi.
      rewrite decide_False by lia. done.
  - destruct (lookup_lt_is_Some_2 byte_targets j) as [tj Htj]; [lia|].
    destruct (lookup_lt_is_Some_2 offsets j) as [oj Hoj]; [lia|].
    cbn [Multi.onByteFrom]. cbn zeta. rewrite Htj, Hoj.
    cbn [default from_option id].
    assert (Hkeep : ¬ completes byte_targets offsets b j →
      tj !! oj ≠ Some b →
      match Multi.onByteFrom byte_targets b (S j) n offsets with
      | Done i =>
          j ≤ i ∧ completes byte_targets offsets b i ∧
          ∀ i', j ≤ i' < i → ¬ completes byte_targets offsets b i'
      | Scanning offsets' =>
          length offsets' = length offsets ∧
          (∀ i, j ≤ i → ¬ completes byte_targets offsets b i) ∧
          ∀ i t o, byte_targets !! i = Some t → offsets !! i = Some o →
            offsets' !! i =
              Some (if decide (j ≤ i ∧ t !! o = Some b) then S o else o)
      end).
    { intros Hnj Hnb. specialize (IH (S j) offsets).
      destruct (Multi.onByteFrom byte_targets b (S j) n offsets)
        as [i|offsets'].
      - destruct IH as (Hi & Hc & Hfirst); [lia|done|].
        split; [lia|]. split; [done|]. intros i' Hi'.
        destruct (decide (i' = j)) as [->|]; [done|]. apply Hfirst. lia.
      - destruct IH as (Hl & Hnone & Hupd); [lia|done|].
        split; [done|]. split.
        + intros i Hi. destruct (decide (i = j)) as [->|]; [done|].
          apply Hnone. lia.
        + intros i t o Ht Ho. rewrite (Hupd i t o Ht Ho).
          destruct (decide (i = j)) as [->|].
          * assert (t = tj) by congruence. assert (o = oj) by congruence.
            subst.
            rewrite !decide_False by (intros [? ?]; first [lia|congruence]).
            done.
          * f_equal. apply decide_ext. split; intros [? ?]; split; done || lia. }
    destruct (strict_eq (Some b) (tj !! oj)) eqn:E.
    + apply strict_eq_true in E. symmetry in E.
      destruct (S oj =? length tj) eqn:El.
      * apply Nat.eqb_eq in El. split; [lia|]. split.
        -- exists tj, oj. done.
        -- intros i' Hi'. lia.
      * apply Nat.eqb_neq in El.
        assert (Hnj : ¬ completes byte_targets offsets b j).
        { intros (t & o & Ht & Ho & _ & Hl). congruence. }
        specialize (IH (S j) (<[j := S oj]> offsets)).
        rewrite length_insert in IH.
        destruct (Multi.onByteFrom byte_targets b (S j) n
                    (<[j := S oj]> offsets)) as [i|offsets'].
        -- destruct IH as (Hi & Hc & Hfirst); [lia|done|].
           split; [lia|]. split.
           ++ apply completes_insert_ne in Hc; [done|lia].
           ++ intros i' Hi'. destruct (decide (i' = j)) as [->|]; [done|].
              rewrite <- (completes_insert_ne _ _ _ j (S oj)) by done.
              apply Hfirst. lia.
        -- destruct IH as (Hl & Hnone & Hupd); [lia|done|].
           split; [done|]. split.
           ++ intros i Hi. destruct (decide (i = j)) as [->|]; [done|].
              rewrite <- (completes_insert_ne _ _ _ j (S oj)) by done.
              apply Hnone. lia.
           ++ intros i t o Ht Ho. destruct (decide (i = j)) as [->|].
              ** assert (t = tj) by congruence.
                 assert (o = oj) by congruence. subst.
                 rewrite (Hupd j tj (S oj)); [|done|].
                 --- rewrite decide_False by lia.
                     rewrite decide_True by done. done.
                 --- apply list_lookup_insert_eq. lia.
              ** rewrite (Hupd i t o); [|done|].
                 --- f_equal. apply decide_ext. split; intros [? ?]; split; done || lia.
                 --- by rewrite list_lookup_insert_ne.
    + apply strict_eq_false in E.
      assert (Hnj : ¬ completes byte_targets offsets b j).
      { intros (t & o & Ht & Ho & Hb & _). congruence. }
      destruct (oj =? 0); apply Hkeep; done || congruence.
Qed.

Lemma multi_onByte_spec offsets b :
  length offsets = length byte_targets →
  match Multi.onByte byte_targets offsets b with
  | Done i =>
      completes byte_targets offsets b i ∧
      ∀ i', i' < i → ¬ completes byte_targets offsets b i'
  | Scanning offsets' =>
      length offsets' = length offsets ∧
      (∀ i, ¬ completes byte_targets offsets b i) ∧
      ∀ i t o, byte_targets !! i = Some t → offsets !! i = Some o →
        offsets' !! i = Some (if decide (t !! o = Some b) then S o else o)
  end.
Proof.
  intros Hlen. unfold Multi.onByte.
  pose proof (multi_onByteFrom_spec b (length byte_targets) 0 offsets
                eq_refl Hlen) as H.
  destruct (Multi.onByteFrom byte_targets b 0 (length byte_targets) offsets)
    as [i|offsets'].
  - destruct H as (_ & Hc & Hfirst). split; [done|].
    intros i' Hi'. apply Hfirst. lia.
  - destruct H as (Hl & Hnone & Hupd). split; [done|]. split.
    + intros i. apply Hnone. lia.
    + intros i t o Ht Ho. rewrite (Hupd i t o Ht Ho). f_equal.
      apply decide_ext. split; [intros [? ?]; done|intros ?; split; done || lia].
Qed.

Lemma multi_onData_app d1 d2 offsets :
  Multi.onData byte_targets offsets (d1 ++ d2) =
  match Multi.onData byte_targets offsets d1 with
  | Done j => Done j
  | Scanning offsets' => Multi.onData byte_targets offsets' d2
  end.
Proof.
  revert offsets. induction d1 as [|b d1 IH]; intros offsets; simpl; [done|].
  destruct (Multi.onByte byte_targets offsets b); [done|]. apply IH.
Qed.

Lemma multi_onData_length data : ∀ offsets offsets',
  length offsets = length byte_targets →
  Multi.onData byte_targets offsets data = Scanning offsets' →
  length offsets' = length offsets.
Proof.
  induction data as [|b data IH]; intros offsets offsets' Hlen; simpl.
  - congruence.
  - pose proof (multi_onByte_spec offsets b Hlen) as H.
    destruct (Multi.onByte byte_targets offsets b) as [i|o1]; [done|].
    destruct H as (Hl & _). intros Hd.
    rewrite (IH o1 offsets'); [done|congruence|done].
Qed.
End MultiScan.

(** ** Stored offsets of [multiFindUtil] never go down *)

Section MultiProgress.
Variable byte_targets : list (list byte).
Variable j : nat.
Variable t : list byte.
Hypothesis Hj : byte_targets !! j = Some t.

Lemma multi_onByte_bound offsets offsets' b o :
  length offsets = length byte_targets →
  Multi.onByte byte_targets offsets b = Scanning offsets' →
  offsets !! j = Some o → o < length t →
  ∃ o', offsets' !! j = Some o' ∧ o ≤ o' < length t ∧
        (t !! o = Some b → o' = S o).
Proof.
  intros Hlen Hstep Ho Hlt.
  pose proof (multi_onByte_spec byte_targets offsets b Hlen) as H.
  rewrite Hstep in H. destruct H as (_ & Hnone & Hupd).
  rewrite (Hupd j t o Hj Ho). case_decide as Hb.
  - exists (S o). split; [done|]. split; [|done].
    assert (S o ≠ length t); [|lia].
    intros Hl. apply (Hnone j). exists t, o. done.
  - exists o. split; [done|]. split; [lia|done].
Qed.

Lemma multi_onData_bound data : ∀ offsets offsets' o,
  length offsets = length byte_targets →
  Multi.onData byte_targets offsets data = Scanning offsets' →
  offsets !! j = Some o → o < length t →
  ∃ o', offsets' !! j = Some o' ∧ o ≤ o' < length t.
Proof.
  induction data as [|b data IH]; intros offsets offsets' o Hlen; simpl.
  - intros [= <-] Ho Hlt. exists o. split; [done|lia].
  - destruct (Multi.onByte byte_targets offsets b) as [i|o1] eqn:Hstep;
      [done|].
    intros Hd Ho Hlt.
    destruct (multi_onByte_bound _ _ _ _ Hlen Hstep Ho Hlt)
      as (o1' & Ho1 & Hle & _).
    pose proof (multi_onByte_spec byte_targets offsets b Hlen) as H.
    rewrite Hstep in H. destruct H as (Hl1 & _).
    destruct (IH o1 offsets' o1') as (o' & Ho' & Hle');
      [congruence|done|done|lia|].
    exists o'. split; [done|lia].
Qed.

(** Feeding the rest of the pattern from index [i] on, to a stored offset
    that is at least [i], leaves the offset at the pattern's length or
    beyond, unless the scan has returned. *)
Lemma multi_onData_feed rest : ∀ i offsets offsets' o,
  length offsets = length byte_targets →
  offsets !! j = Some o → i ≤ o < length t →
  rest = drop i t →
  Multi.onData byte_targets offsets rest = Scanning offsets' →
  ∃ o', offsets' !! j = Some o' ∧ o' < length t ∧ i + length rest ≤ o'.
Proof.
  induction rest as [|b rest IH]; intros i offsets offsets' o Hlen Ho Hio Hr;
    simpl.
  - intros [= <-]. exists o. split; [done|lia].
  - destruct (Multi.onByte byte_targets offsets b) as [?|o1] eqn:Hstep;
      [done|].
    intros Hd.
    assert (Hb : t !! i = Some b).
    { pose proof (lookup_drop t i 0) as Hl. rewrite <- Hr in Hl.
      simpl in Hl. rewrite Nat.add_0_r in Hl. done. }
    assert (Hr' : rest = drop (S i) t).
    { pose proof (drop_drop t 1 i) as Hdd. rewrite <- Hr in Hdd.
      simpl in Hdd. rewrite drop_0 in Hdd.
      replace (i + 1) with (S i) in Hdd by lia. done. }
    destruct (multi_onByte_bound _ _ _ _ Hlen Hstep Ho ltac:(lia))
      as (o1' & Ho1 & Hle & Hadv).
    pose proof (multi_onByte_spec byte_targets offsets b Hlen) as H.
    rewrite Hstep in H. destruct H as (Hl1 & _).
    assert (S i ≤ o1').
    { destruct (decide (o = i)) as [->|]; [|lia]. rewrite Hadv; done. }
    destruct (IH (S i) o1 offsets' o1') as (o' & Ho' & Hlt' & Hge);
      [congruence|done|lia|done|done|].
    exists o'. split; [done|]. split; [done|lia].
Qed.

Lemma multi_onData_done data : ∀ offsets i,
  length offsets = length byte_targets →
  Multi.onData byte_targets offsets data = Done i →
  i < length byte_targets.
Proof.
  induction data as [|b data IH]; intros offsets i Hlen; simpl; [done|].
  pose proof (multi_onByte_spec byte_targets offsets b Hlen) as H.
  destruct (Multi.onByte byte_targets offsets b) as [i'|o1].
  - intros [= <-]. destruct H as [(t' & o & Ht & _) _].
    by apply lookup_lt_Some in Ht.
  - destruct H as (Hl1 & _). apply IH. congruence.
Qed.

(** Once the bytes of pattern [j] have gone by, some pattern has been
    reported. *)
Lemma multi_onData_occurrence pre post :
  0 < length t →
  ∃ i, i < length byte_targets ∧
    Multi.onData byte_targets (replicate (length byte_targets) 0)
      (pre ++ t ++ post) = Done i.
Proof.
  intros Hne.
  set (offsets := replicate (length byte_targets) 0).
  assert (Hlen : length offsets = length byte_targets)
    by apply length_replicate.
  assert (Ho : offsets !! j = Some 0).
  { apply lookup_replicate_2. by apply lookup_lt_Some in Hj. }
  assert (Hfin : ∀ d i, Multi.onData byte_targets offsets d = Done i →
            ∃ i, i < length byte_targets ∧
              Multi.onData byte_targets offsets (d ++ post) = Done i).
  { intros d i Hd. exists i. split; [by eapply multi_onData_done|].
    by rewrite multi_onData_app, Hd. }
  rewrite app_assoc.
  destruct (Multi.onData byte_targets offsets (pre ++ t)) as [i|o2] eqn:Hall;
    [by eapply Hfin|].
  exfalso. rewrite multi_onData_app in Hall.
  destruct (Multi.onData byte_targets offsets pre) as [i|o1] eqn:Hpre;
    [done|].
  destruct (multi_onData_bound pre offsets o1 0 Hlen Hpre Ho Hne)
    as (o & Ho1 & Hle).
  pose proof (multi_onData_length _ _ _ _ Hlen Hpre) as Hl1.
  destruct (multi_onData_feed t 0 o1 o2 o) as (o' & _ & Hlt & Hge);
    [congruence|done|lia|by rewrite drop_0|done|].
  lia.
Qed.
End MultiProgress.

(** ** The polling loops over several reads *)

Section Polling.
Variable end_time : Z.

Lemma single_poll_hit pattern n : ∀ reads clk o,
  n ≤ length reads → n - 1 ≤ length clk →
  Forall (λ now, (now < end_time)%Z) (take (n - 1) clk) →
  Single.onData pattern o (concat (take n reads)) = Done true →
  ∃ k, k < n ∧
    Single.poll pattern end_time o clk reads =
      Returns true (mkWorld (drop k clk) (drop (S k) reads)).
Proof.
  induction n as [|n IH]; intros reads clk o Hn Hc Hbefore Hhit.
  - done.
  - destruct reads as [|data reads]; [simpl in Hn; lia|].
    simpl in Hhit. rewrite single_onData_app in Hhit.
    cbn [Single.poll drop].
    destruct (Single.onData pattern o data) as [r|o'].
    + exists 0. split; [lia|]. by injection Hhit as ->.
    + destruct n as [|n]; [done|].
      destruct clk as [|now clk]; [simpl in Hc; lia|].
      simpl in Hbefore. apply Forall_cons in Hbefore as [Hnow Hbefore].
      apply Z.ltb_lt in Hnow. rewrite Hnow.
      destruct (IH reads clk o') as (k & Hk & ->).
      * simpl in Hn. lia.
      * simpl in Hc. simpl. lia.
      * simpl. by rewrite Nat.sub_0_r.
      * done.
      * exists (S k). split; [lia|done].
Qed.

Lemma multi_poll_hit byte_targets n : ∀ reads clk offsets j,
  n ≤ length reads → n - 1 ≤ length clk →
  Forall (λ now, (now < end_time)%Z) (take (n - 1) clk) →
  Multi.onData byte_targets offsets (concat (take n reads)) = Done j →
  ∃ k, k < n ∧
    Multi.poll byte_targets end_time offsets clk reads =
      Returns (Z.of_nat j) (mkWorld (drop k clk) (drop (S k) reads)).
Proof.
  induction n as [|n IH]; intros reads clk offsets j Hn Hc Hbefore Hhit.
  - done.
  - destruct reads as [|data reads]; [simpl in Hn; lia|].
    simpl in Hhit. rewrite multi_onData_app in Hhit.
    cbn [Multi.poll drop].
    destruct (Multi.onData byte_targets offsets data) as [r|o'].
    + exists 0. split; [lia|]. by injection Hhit as ->.
    + destruct n as [|n]; [done|].
      destruct clk as [|now clk]; [simpl in Hc; lia|].
      simpl in Hbefore. apply Forall_cons in Hbefore as [Hnow Hbefore].
      apply Z.ltb_lt in Hnow. rewrite Hnow.
      destruct (IH reads clk o' j) as (k & Hk & ->).
      * simpl in Hn. lia.
      * simpl in Hc. simpl. lia.
      * simpl. by rewrite Nat.sub_0_r.
      * done.
      * exists (S k). split; [lia|done].
Qed.
End Polling.

Lemma fromUTF8_nonempty (s : string) : s ≠ "" → 0 < length (fromUTF8 s).
Proof.
  destruct s as [|c s]; [done|]. intros _.
  unfold fromUTF8, String.list_byte_of_string. simpl. lia.
Qed.

(** * Properties *)

(** ** Mismatch recovery *)

(** C1, as amended.  In [singleFindUtil], a byte [b] that mismatches while
    the offset is positive sets the offset to the largest [o'] with
    [1 <= o' <= offset] such that [pattern[o' - 1] = b] and
    [pattern[0 .. o' - 1)] is the suffix of [pattern[0 .. offset)] of that
    length, or to 0 when there is none; the next byte is processed from
    that offset. *)
Theorem single_mismatch_recovery (pattern : list byte) (offset : nat)
    (b : byte) (data : list byte) :
  0 < offset < length pattern →
  pattern !! offset ≠ Some b →
  ∃ o', Single.onByte pattern offset b = Scanning o' ∧
        largest_or_zero (realigns pattern b offset) o' ∧
        Single.onData pattern offset (b :: data) =
          Single.onData pattern o' data.
Proof.
  intros Hoff Hmis. exists (backtrack pattern b offset offset).
  assert (Hstep : Single.onByte pattern offset b =
                  Scanning (backtrack pattern b offset offset)).
  { unfold Single.onByte.
    destruct (strict_eq (Some b) (pattern !! offset)) eqn:E; [|done].
    apply strict_eq_true in E. congruence. }
  split; [done|]. split.
  - apply backtrack_largest. lia.
  - simpl. by rewrite Hstep.
Qed.

Lemma single_mismatch_recovery_witness :
  ∃ o', Single.onByte (fromUTF8 "AAB") 2 "A" = Scanning o' ∧
        largest_or_zero (realigns (fromUTF8 "AAB") "A" 2) o' ∧
        Single.onData (fromUTF8 "AAB") 2 ("A"%byte :: fromUTF8 "B") =
          Single.onData (fromUTF8 "AAB") o' (fromUTF8 "B").
Proof.
  apply single_mismatch_recovery; [simpl; lia | discriminate].
Defined.

(** C1, as stated, fails.  In [singleFindUtil] with pattern "AAB", offset 2
    and byte "A" the new offset is 2, where the stated rule (the largest
    [o' < offset] whose whole prefix [pattern[0 .. o')] is a suffix of the
    matched run) gives 1.  In [multiFindUtil] with pattern "AB", offset 1
    and byte "C" the stored offset stays 1, where the stated rule gives 0. *)
Lemma recovery_not_as_specified :
  (fromUTF8 "AAB" !! 2 ≠ Some "A"%byte ∧
   Single.onByte (fromUTF8 "AAB") 2 "A" = Scanning 2 ∧
   largest_or_zero (realigns_as_specified (fromUTF8 "AAB") "A" 2) 1 ∧
   ¬ largest_or_zero (realigns_as_specified (fromUTF8 "AAB") "A" 2) 2) ∧
  (fromUTF8 "AB" !! 1 ≠ Some "C"%byte ∧
   Multi.onByte [fromUTF8 "AB"] [1] "C" = Scanning [1] ∧
   largest_or_zero (realigns_as_specified (fromUTF8 "AB") "C" 1) 0 ∧
   ¬ largest_or_zero (realigns_as_specified (fromUTF8 "AB") "C" 1) 1).
Proof.
  split.
  - split; [discriminate|]. split; [reflexivity|]. split.
    + left. split.
      * split; [lia|]. split; reflexivity.
      * intros n [Hn _]. lia.
    + intros [[[Hn _] _]|[Hn _]]; [lia|discriminate].
  - split; [discriminate|]. split; [reflexivity|]. split.
    + right. split; [done|]. intros n [Hn _]. lia.
    + intros [[[Hn _] _]|[Hn _]]; [lia|discriminate].
Qed.

(** ** The stored offset against the consumed bytes *)

(** X21, the invariant of C2 in [singleFindUtil]: while the scan of one call
    goes on, the offset is the length of the longest prefix of the pattern
    that is a suffix of the bytes consumed, and is below the pattern's
    length. *)
Theorem single_offset_invariant (pattern consumed : list byte) (o : nat) :
  0 < length pattern →
  Single.onData pattern 0 consumed = Scanning o →
  longest_border pattern consumed o ∧ o < length pattern ∧
  o = longest_prefix_suffix pattern consumed.
Proof.
  intros Hne Hscan.
  pose proof (single_onData_border pattern consumed [] 0
                (longest_border_start pattern) Hne) as H.
  rewrite Hscan in H. simpl in H. destruct H as [Ho Hlb].
  split; [done|]. split; [done|].
  eapply longest_border_unique; [done|].
  apply longest_prefix_suffix_spec.
Qed.

Lemma single_offset_invariant_witness :
  longest_border (fromUTF8 "ABAB") (fromUTF8 "xABA") 3 ∧
  3 < length (fromUTF8 "ABAB") ∧
  3 = longest_prefix_suffix (fromUTF8 "ABAB") (fromUTF8 "xABA").
Proof.
  apply (single_offset_invariant (fromUTF8 "ABAB") (fromUTF8 "xABA") 3).
  - simpl. lia.
  - reflexivity.
Defined.

(** C2 at its failing input.  [multiFindUtil] with pattern "ABAB" fed
    "A","B","C" keeps 2 as the stored offset, where the longest prefix of
    the pattern that ends "ABC" has length 0 (and where [singleFindUtil]
    is at 0); fed "A","B" more, it reports the pattern, which the stream
    "ABCAB" does not contain. *)
Theorem multi_stored_offset_stale :
  Multi.onData [fromUTF8 "ABAB"] [0] (fromUTF8 "ABC") = Scanning [2] ∧
  longest_prefix_suffix (fromUTF8 "ABAB") (fromUTF8 "ABC") = 0 ∧
  Single.onData (fromUTF8 "ABAB") 0 (fromUTF8 "ABC") = Scanning 0 ∧
  multiFindUtil ["ABAB"] 100
    (mkWorld [0; 1; 2; 100]%Z [fromUTF8 "ABC"; fromUTF8 "AB"; []])
  = Returns 0%Z (mkWorld [2; 100]%Z [[]]) ∧
  singleFindUtil "ABAB" 100
    (mkWorld [0; 1; 2; 100]%Z [fromUTF8 "ABC"; fromUTF8 "AB"; []])
  = Returns false (mkWorld [] []).
Proof. repeat split; vm_compute; reflexivity. Qed.

(** The offsets of the recovery example in [singleFindUtil]: "ABAB" fed
    "A","B","A" is at 1, 2, 3 and completes on the fourth byte; fed
    "A","B","C" it is back at 0. *)
Lemma single_abab_offsets :
  Single.onData (fromUTF8 "ABAB") 0 (fromUTF8 "A") = Scanning 1 ∧
  Single.onData (fromUTF8 "ABAB") 0 (fromUTF8 "AB") = Scanning 2 ∧
  Single.onData (fromUTF8 "ABAB") 0 (fromUTF8 "ABA") = Scanning 3 ∧
  Single.onData (fromUTF8 "ABAB") 0 (fromUTF8 "ABAB") = Done true ∧
  Single.onData (fromUTF8 "ABAB") 0 (fromUTF8 "ABC") = Scanning 0.
Proof. repeat split; reflexivity. Qed.

(** ** Single against multi *)

(** C3 at its failing input.  With target "AB" and the bytes "A","C","B"
    [singleFindUtil] returns false at the deadline and
    [multiFindUtil ["AB"]] returns 0 on the third byte. *)
Theorem single_multi_disagree :
  singleFindUtil "AB" 10
    (mkWorld [0; 1; 2; 3; 10]%Z
       [fromUTF8 "A"; fromUTF8 "C"; fromUTF8 "B"; []])
  = Returns false (mkWorld [] []) ∧
  multiFindUtil ["AB"] 10
    (mkWorld [0; 1; 2; 3; 10]%Z
       [fromUTF8 "A"; fromUTF8 "C"; fromUTF8 "B"; []])
  = Returns 0%Z (mkWorld [3; 10]%Z [[]]).
Proof. split; vm_compute; reflexivity. Qed.

(** ** Where a match is reported *)

(** C4, as stated, fails.  With targets "OK", "ERROR" and the reads "GOK",
    then "OK\r\n", the call returns 0 from the first read and leaves the
    second unread; it does not return having consumed the second. *)
Lemma ok_reported_before_second_occurrence :
  multiFindUtil ["OK"; "ERROR"] 1000
    (mkWorld [0; 1; 2]%Z [fromUTF8 "GOK"; fromUTF8 "OK" ++ crlf])
  = Returns 0%Z (mkWorld [1; 2]%Z [fromUTF8 "OK" ++ crlf]) ∧
  ¬ ∃ clk', multiFindUtil ["OK"; "ERROR"] 1000
              (mkWorld [0; 1; 2]%Z [fromUTF8 "GOK"; fromUTF8 "OK" ++ crlf])
            = Returns 0%Z (mkWorld clk' []).
Proof.
  split; [vm_compute; reflexivity|].
  intros [clk' H]. vm_compute in H. discriminate.
Qed.

(** C4, as amended.  With targets "OK", "ERROR" and a stream that starts
    "G","O","K", whether it comes in one read or byte by byte before the
    deadline, the call returns 0 on the third byte, the "K" that ends the
    first contiguous "OK"; nothing is reported on "G","O", and the reads
    that follow are left unread. *)
Theorem ok_reported_on_third_byte (T now : Z) (clk : list Z)
    (later : list (list byte)) :
  (0 ≤ T)%Z →
  multiFindUtil ["OK"; "ERROR"] T
    (mkWorld (now :: clk) (fromUTF8 "GOK" :: later))
  = Returns 0%Z (mkWorld clk later) ∧
  (∀ t1 t2, (t1 < now + T)%Z → (t2 < now + T)%Z →
     multiFindUtil ["OK"; "ERROR"] T
       (mkWorld (now :: t1 :: t2 :: clk)
          (fromUTF8 "G" :: fromUTF8 "O" :: fromUTF8 "K" :: later))
     = Returns 0%Z (mkWorld clk later)) ∧
  Multi.onData (fromUTF8 <$> ["OK"; "ERROR"]) [0; 0] (fromUTF8 "GO")
  = Scanning [1; 0].
Proof.
  intros HT. apply Z.ltb_ge in HT.
  split; [|split; [|reflexivity]].
  - unfold multiFindUtil. rewrite HT. reflexivity.
  - intros t1 t2 H1 H2. apply Z.ltb_lt in H1, H2.
    unfold multiFindUtil. rewrite HT.
    cbn [bool_decide orb clock rx]. simpl.
    rewrite H1. simpl. rewrite H2. reflexivity.
Qed.

Lemma ok_reported_on_third_byte_witness :
  multiFindUtil ["OK"; "ERROR"] 1000
    (mkWorld [0; 1; 2]%Z [fromUTF8 "GOK"; fromUTF8 "OK" ++ crlf])
  = Returns 0%Z (mkWorld [1; 2]%Z [fromUTF8 "OK" ++ crlf]).
Proof.
  apply (ok_reported_on_third_byte 1000 0 [1; 2]%Z [fromUTF8 "OK" ++ crlf]).
  lia.
Defined.

(** The scan of a buffer reports pattern [j] exactly when the
    data splits around a byte [b] such that no pattern completed on the
    bytes before it, pattern [j] completes on [b] (it matches at its stored
    offset and that was its last byte) and no pattern of lower index
    completes on [b]; the bytes after [b] have no part in it.  With targets
    "A", "AB" and the input "AB" the call returns 0. *)
Theorem multi_first_completion_wins (byte_targets : list (list byte))
    (offsets : list nat) (data : list byte) (j : nat) :
  length offsets = length byte_targets →
  (Multi.onData byte_targets offsets data = Done j ↔
   ∃ pre b post offsets',
     data = pre ++ b :: post ∧
     Multi.onData byte_targets offsets pre = Scanning offsets' ∧
     completes byte_targets offsets' b j ∧
     ∀ j', j' < j → ¬ completes byte_targets offsets' b j') ∧
  (∀ (T now : Z) clk later, (0 ≤ T)%Z →
     multiFindUtil ["A"; "AB"] T (mkWorld (now :: clk) (fromUTF8 "AB" :: later))
     = Returns 0%Z (mkWorld clk later)).
Proof.
  intros Hlen. split.
  - split.
    + revert offsets Hlen.
      induction data as [|b data IH]; intros offsets Hlen; simpl; [done|].
      pose proof (multi_onByte_spec byte_targets offsets b Hlen) as H.
      destruct (Multi.onByte byte_targets offsets b) as [i|o1] eqn:Hstep.
      * intros [= ->]. destruct H as [Hc Hfirst].
        exists [], b, data, offsets. done.
      * destruct H as (Hl1 & _). intros Hd.
        destruct (IH o1) as (pre & b' & post & offs' & -> & Hpre & Hc & Hf);
          [congruence|done|].
        exists (b :: pre), b', post, offs'. split; [done|].
        split; [|done]. simpl. by rewrite Hstep.
    + intros (pre & b & post & offs' & -> & Hpre & Hc & Hfirst).
      rewrite multi_onData_app, Hpre. simpl.
      pose proof (multi_onData_length _ _ _ _ Hlen Hpre) as Hl.
      pose proof (multi_onByte_spec byte_targets offs' b
                    ltac:(congruence)) as H.
      destruct (Multi.onByte byte_targets offs' b) as [i|o1].
      * destruct H as [Hi Hfi]. f_equal.
        destruct (Nat.lt_trichotomy i j) as [Hlt|[->|Hgt]]; [|done|].
        -- by apply Hfirst in Hlt.
        -- by apply Hfi in Hgt.
      * destruct H as (_ & Hnone & _). by apply Hnone in Hc.
  - intros T now clk later HT. apply Z.ltb_ge in HT.
    unfold multiFindUtil. rewrite HT. reflexivity.
Qed.

Lemma multi_first_completion_wins_witness :
  (Multi.onData [fromUTF8 "A"; fromUTF8 "AB"] [0; 0] (fromUTF8 "AB") = Done 0 ↔
   ∃ pre b post offsets',
     fromUTF8 "AB" = pre ++ b :: post ∧
     Multi.onData [fromUTF8 "A"; fromUTF8 "AB"] [0; 0] pre = Scanning offsets' ∧
     completes [fromUTF8 "A"; fromUTF8 "AB"] offsets' b 0 ∧
     ∀ j', j' < 0 → ¬ completes [fromUTF8 "A"; fromUTF8 "AB"] offsets' b j') ∧
  (∀ (T now : Z) clk later, (0 ≤ T)%Z →
     multiFindUtil ["A"; "AB"] T (mkWorld (now :: clk) (fromUTF8 "AB" :: later))
     = Returns 0%Z (mkWorld clk later)).
Proof.
  apply (multi_first_completion_wins [fromUTF8 "A"; fromUTF8 "AB"] [0; 0]).
  reflexivity.
Defined.





(** C10.  In [multiFindUtil], a byte that does not complete any pattern
    leaves the stored offset of every pattern it mismatches as it was,
    whatever the recovery loop computed for it; a stored offset changes
    only where the byte matched, and then by one. *)
Theorem multi_mismatch_keeps_stored_offset (byte_targets : list (list byte))
    (offsets offsets' : list nat) (b : byte) (j : nat) (t : list byte)
    (o : nat) :
  length offsets = length byte_targets →
  byte_targets !! j = Some t →
  offsets !! j = Some o →
  Multi.onByte byte_targets offsets b = Scanning offsets' →
  (0 < o → t !! o ≠ Some b → offsets' !! j = Some o) ∧
  (offsets' !! j ≠ Some o → t !! o = Some b ∧ offsets' !! j = Some (S o)).
Proof.
  intros Hlen Ht Ho Hstep.
  pose proof (multi_onByte_spec byte_targets offsets b Hlen) as H.
  rewrite Hstep in H. destruct H as (_ & _ & Hupd).
  rewrite (Hupd j t o Ht Ho). case_decide as Hb.
  - split; [done|]. intros _. done.
  - split; [done|]. intros Hne. done.
Qed.

Lemma multi_mismatch_keeps_stored_offset_witness :
  (0 < 2 → fromUTF8 "ABAB" !! 2 ≠ Some "C"%byte →
   [2; 0] !! 0 = Some 2) ∧
  ([2; 0] !! 0 ≠ Some 2 →
   fromUTF8 "ABAB" !! 2 = Some "C"%byte ∧ [2; 0] !! 0 = Some 3).
Proof.
  apply (multi_mismatch_keeps_stored_offset
           [fromUTF8 "ABAB"; fromUTF8 "OK"] [2; 0] [2; 0] "C" 0
           (fromUTF8 "ABAB") 2); reflexivity.
Defined.

Lemma multi_recovered_offset_dropped :
  backtrack (fromUTF8 "ABAB") "C" 2 2 = 0 ∧
  Multi.onByte [fromUTF8 "ABAB"] [2] "C" = Scanning [2].
Proof. split; reflexivity. Qed.

(** ** Liveness *)

(** C6.  Let the pattern [P] be non-empty and the timeout non-negative,
    and let the bytes of [P] occur contiguously in the first [n] reads of
    the call, each of which is made before the deadline (the clock readings
    that precede them are below [now + T]).  Then [multiFindUtil], with [P]
    among its targets, returns the index of a target, and [singleFindUtil]
    returns true; both return from one of these [n] reads, having seen no
    clock reading at or past the deadline. *)
Theorem find_liveness (targets : list string) (P : string) (T : Z)
    (w : World) (now : Z) (clk : list Z) (n : nat) (pre post : list byte) :
  P ∈ targets → P ≠ "" → (0 ≤ T)%Z →
  clock w = now :: clk →
  n ≤ length (rx w) → n - 1 ≤ length clk →
  Forall (λ t, (t < now + T)%Z) (take (n - 1) clk) →
  concat (take n (rx w)) = pre ++ fromUTF8 P ++ post →
  (∃ j k, j < length targets ∧ k < n ∧
     multiFindUtil targets T w =
       Returns (Z.of_nat j) (mkWorld (drop k clk) (drop (S k) (rx w)))) ∧
  (∃ k, k < n ∧
     singleFindUtil P T w =
       Returns true (mkWorld (drop k clk) (drop (S k) (rx w)))).
Proof.
  intros Hin Hne HT Hclock Hn Hc Hbefore Hocc.
  apply Z.ltb_ge in HT. apply fromUTF8_nonempty in Hne as Hlen.
  split.
  - unfold multiFindUtil.
    apply list_elem_of_lookup_1 in Hin as [i Hi].
    assert (length targets ≠ 0).
    { apply lookup_lt_Some in Hi. lia. }
    rewrite bool_decide_eq_false_2 by done. rewrite HT, Hclock. simpl.
    assert (Hbi : (fromUTF8 <$> targets) !! i = Some (fromUTF8 P)).
    { by rewrite list_lookup_fmap, Hi. }
    destruct (multi_onData_occurrence _ i _ Hbi pre post Hlen)
      as (j & Hj & Hdone).
    rewrite <- Hocc in Hdone.
    destruct (multi_poll_hit (now + T) _ n (rx w) clk _ j Hn Hc Hbefore Hdone)
      as (k & Hk & Hpoll).
    exists j, k. rewrite length_fmap in Hj. done.
  - unfold singleFindUtil.
    rewrite bool_decide_eq_false_2 by done. rewrite HT, Hclock. simpl.
    pose proof (single_onData_occurrence (fromUTF8 P) pre post Hlen) as Hdone.
    rewrite <- Hocc in Hdone.
    apply (single_poll_hit (now + T) _ n (rx w) clk 0 Hn Hc Hbefore Hdone).
Qed.

Lemma find_liveness_witness :
  (∃ j k, j < 2 ∧ k < 3 ∧
     multiFindUtil ["ERROR"; "OK"] 50
       (mkWorld [0; 10; 20; 30]%Z [fromUTF8 "xO"; []; fromUTF8 "Ky"; []]) =
     Returns (Z.of_nat j)
       (mkWorld (drop k [10; 20; 30]%Z)
          (drop (S k) [fromUTF8 "xO"; []; fromUTF8 "Ky"; []]))) ∧
  (∃ k, k < 3 ∧
     singleFindUtil "OK" 50
       (mkWorld [0; 10; 20; 30]%Z [fromUTF8 "xO"; []; fromUTF8 "Ky"; []]) =
     Returns true
       (mkWorld (drop k [10; 20; 30]%Z)
          (drop (S k) [fromUTF8 "xO"; []; fromUTF8 "Ky"; []]))).
Proof.
  apply (find_liveness ["ERROR"; "OK"] "OK" 50
           (mkWorld [0; 10; 20; 30]%Z [fromUTF8 "xO"; []; fromUTF8 "Ky"; []])
           0 [10; 20; 30]%Z 3 (fromUTF8 "x") (fromUTF8 "y")).
  - apply list_elem_of_In. simpl. tauto.
  - discriminate.
  - lia.
  - reflexivity.
  - simpl. lia.
  - simpl. lia.
  - simpl. repeat constructor.
  - reflexivity.
Defined.

(** ** Argument checks *)

(** A target list that holds an empty string, with a non-negative
    timeout, does not make [multiFindUtil] throw. *)
Lemma multi_accepts_empty_pattern :
  ¬ ((∃ msg w', multiFindUtil [""; "OK"] 0 (mkWorld [0; 0]%Z [[]])
                = Throws msg w') ↔
     ([""; "OK"] = [] ∨ "" ∈ [""; "OK"] ∨ (0 < 0)%Z)).
Proof.
  intros [_ H].
  destruct H as (msg & w' & H).
  - right. left. apply list_elem_of_In. simpl. tauto.
  - vm_compute in H. discriminate.
Qed.

(** The guard of line 9 as it is written: [multiFindUtil] throws exactly
    when the target list is empty or the timeout is negative, and then it
    has read neither the clock nor the serial port. *)
Theorem multi_throws_iff (targets : list string) (T : Z) (w : World) :
  ((targets = [] ∨ (T < 0)%Z) ↔
   ∃ msg w', multiFindUtil targets T w = Throws msg w') ∧
  (∀ msg w', multiFindUtil targets T w = Throws msg w' → w' = w).
Proof.
  assert (Hpoll : ∀ bts e offs clk reads msg w',
            Multi.poll bts e offs clk reads ≠ Throws msg w').
  { intros bts e offs clk reads msg w'. revert offs clk.
    induction reads as [|data reads IH]; intros offs clk; simpl; [done|].
    destruct (Multi.onData bts offs data); [done|].
    destruct clk as [|now clk]; [done|].
    destruct (now <? e)%Z; [apply IH|done]. }
  unfold multiFindUtil.
  destruct (bool_decide (length targets = 0) || (T <? 0)%Z) eqn:E.
  - split; [|by intros msg w' [= _ ->]]. split; [eauto|]. intros _.
    apply orb_true_iff in E as [E|E].
    + apply bool_decide_eq_true in E. left. by destruct targets.
    + right. by apply Z.ltb_lt.
  - apply orb_false_iff in E as [E1 E2].
    apply bool_decide_eq_false in E1. apply Z.ltb_ge in E2.
    assert (Hno : ∀ msg w',
      match clock w with
      | [] => Pending
      | now :: clk =>
          Multi.poll (fromUTF8 <$> targets) (now + T)
            (replicate (length (fromUTF8 <$> targets)) 0) clk (rx w)
      end ≠ Throws msg w').
    { intros msg w'. destruct (clock w); [done|apply Hpoll]. }
    split.
    + split.
      * intros [->|Hneg]; [done|lia].
      * intros (msg & w' & H). by apply Hno in H.
    + intros msg w' H. by apply Hno in H.
Qed.

(** C7 at its failing input.  With the target list "", "OK" and timeout 0
    [multiFindUtil] does not throw: it polls and returns -1, and the empty
    pattern can never be reported.  The three sibling checks reject an
    empty string: [singleFindUtil], [skipNext] and [writeCommand] throw on
    it before reading anything. *)
Theorem multi_empty_pattern_not_rejected :
  multiFindUtil [""; "OK"] 0 (mkWorld [0; 0]%Z [[]])
  = Returns (-1)%Z (mkWorld [] []) ∧
  multiFindUtil [""] 100 (mkWorld [0; 1; 100]%Z [fromUTF8 "OK"; []])
  = Returns (-1)%Z (mkWorld [] []) ∧
  singleFindUtil "" 0 (mkWorld [0; 0]%Z [[]])
  = Throws "Error: 'singleFindUtil' function, invalid parameters."
      (mkWorld [0; 0]%Z [[]]) ∧
  skipNext "" 0 (mkWorld [0; 0]%Z [[]])
  = Throws "Error: 'skipNext' function, invalid parameters."
      (mkWorld [0; 0]%Z [[]]) ∧
  writeCommand "AT" "" 0 [] (mkWorld [0; 0]%Z [[]])
  = (Throws "Error: 'writeCommand' function, invalid parameters."
       (mkWorld [0; 0]%Z [[]]), []).
Proof. repeat split; vm_compute; reflexivity. Qed.

(** ** The bytes [parseNumber] accepts *)

Section ParseNumber.

Lemma digit_range b :
  String.leb "0" (fromCharCode b) && String.leb (fromCharCode b) "9"
  = bool_decide (digit b).
Proof. destruct b; vm_compute; reflexivity. Qed.

Lemma fromCharCode_minus b : fromCharCode b = "-" ↔ b = "-"%byte.
Proof.
  split; [|by intros ->]. unfold fromCharCode. intros [= H].
  apply (f_equal byte_of_ascii) in H.
  by rewrite byte_of_ascii_of_byte in H.
Qed.

Lemma digit_not_minus b : digit b → b ≠ "-"%byte.
Proof. intros Hd ->. unfold digit in Hd. simpl in Hd. lia. Qed.

Lemma accepts_spec num_str b :
  Parse.accepts num_str (fromCharCode b) = true ↔
  (b = "-"%byte ∧ num_str = "") ∨ digit b.
Proof.
  unfold Parse.accepts. rewrite digit_range, orb_true_iff, andb_true_iff.
  rewrite !bool_decide_eq_true, fromCharCode_minus. done.
Qed.

Lemma append_cons c s r : String c s +:+ r = String c (s +:+ r).
Proof. reflexivity. Qed.

Lemma append_text num_str b bs :
  (num_str +:+ fromCharCode b) +:+ text bs = num_str +:+ text (b :: bs).
Proof.
  induction num_str as [|c s IH]; [reflexivity|].
  rewrite !append_cons. by rewrite IH.
Qed.

Lemma append_empty s : s +:+ "" = s.
Proof.
  induction s as [|c s IH]; [reflexivity|]. by rewrite append_cons, IH.
Qed.

Lemma absorbed_digits ds : ∀ num_str,
  Forall digit ds → absorbed num_str ds = true.
Proof.
  induction ds as [|d ds IH]; intros num_str Hds; simpl; [done|].
  apply Forall_cons in Hds as [Hd Hds].
  apply andb_true_iff. split; [|by apply IH].
  apply accepts_spec. by right.
Qed.

Lemma absorbed_sign_digits sign ds :
  sign = [] ∨ sign = ["-"%byte] → Forall digit ds →
  absorbed "" (sign ++ ds) = true.
Proof.
  intros [->| ->] Hds; simpl.
  - by apply absorbed_digits.
  - by apply absorbed_digits.
Qed.

Lemma absorbed_after_first bs : ∀ num_str,
  num_str ≠ "" → absorbed num_str bs = true → Forall digit bs.
Proof.
  induction bs as [|b bs IH]; intros num_str Hne Habs; [constructor|].
  simpl in Habs. apply andb_true_iff in Habs as [Hacc Habs].
  apply accepts_spec in Hacc as [[_ Hempty]|Hd]; [done|].
  constructor; [done|]. apply (IH (num_str +:+ fromCharCode b)); [|done].
  by destruct num_str.
Qed.

(** The accepted runs are the optional leading "-" followed by digits,
    and no others. *)
Lemma absorbed_shape bs :
  absorbed "" bs = true ↔
  ∃ sign ds, bs = sign ++ ds ∧ (sign = [] ∨ sign = ["-"%byte]) ∧
             Forall digit ds.
Proof.
  split.
  - destruct bs as [|b bs]; [by exists [], []; auto|].
    simpl. intros Habs. apply andb_true_iff in Habs as [Hacc Habs].
    apply absorbed_after_first in Habs; [|done].
    apply accepts_spec in Hacc as [[-> _]|Hd].
    + exists ["-"%byte], bs. auto.
    + exists [], (b :: bs). split; [done|]. split; [by left|].
      by constructor.
  - intros (sign & ds & -> & Hs & Hds). by apply absorbed_sign_digits.
Qed.

Lemma digitsValue_decimal ds : ∀ acc,
  digitsValue acc (text ds) =
  foldl (λ acc d, 10 * acc + (Z.of_N (Byte.to_N d) - 48))%Z acc ds.
Proof.
  induction ds as [|d ds IH]; intros acc; simpl; [done|].
  rewrite IH. f_equal. f_equal. f_equal. f_equal.
  rewrite ascii_of_byte_via_N. apply N_ascii_embedding.
  destruct d; vm_compute; reflexivity.
Qed.

Lemma parseInt_digits ds :
  Forall digit ds → parseInt (text ds) = toDouble (decimal ds).
Proof.
  intros Hds. unfold parseInt, decimal. rewrite <- digitsValue_decimal.
  destruct ds as [|d ds]; [done|].
  apply Forall_cons in Hds as [Hd _]. apply digit_not_minus in Hd.
  simpl. destruct (ascii_of_byte d) as [[] [] [] [] [] [] [] []] eqn:E;
    try reflexivity.
  destruct Hd. apply (f_equal byte_of_ascii) in E.
  by rewrite byte_of_ascii_of_byte in E.
Qed.

Lemma parseInt_minus_digits ds :
  parseInt (text ("-"%byte :: ds)) = toDouble (- decimal ds).
Proof.
  unfold parseInt. simpl. unfold decimal. by rewrite <- digitsValue_decimal.
Qed.

Lemma decimal_nonneg ds : Forall digit ds → (0 ≤ decimal ds)%Z.
Proof.
  intros Hds. unfold decimal.
  assert (Hacc : ∀ acc, (0 ≤ acc)%Z → (0 ≤ foldl
            (λ acc d, 10 * acc + (Z.of_N (Byte.to_N d) - 48))%Z acc ds)%Z);
    [|by apply Hacc].
  induction Hds as [|d ds Hd _ IH]; intros acc Hacc; [done|].
  simpl. apply IH. unfold digit in Hd. lia.
Qed.

Lemma text_digits_not_empty sign ds :
  sign = [] ∨ sign = ["-"%byte] → Forall digit ds → ds ≠ [] →
  text (sign ++ ds) ≠ "" ∧ text (sign ++ ds) ≠ "-".
Proof.
  intros Hs Hds Hne. destruct ds as [|d ds]; [done|].
  apply Forall_cons in Hds as [Hd _]. apply digit_not_minus in Hd.
  destruct Hs as [->| ->]; simpl; split; try done.
  intros [= H]. destruct Hd. apply (f_equal byte_of_ascii) in H.
  by rewrite byte_of_ascii_of_byte in H.
Qed.

Variable end_time : Z.

(** Reads that bring nothing or an accepted byte, each followed by a
    clock reading before the deadline, go into the accumulated text. *)
Lemma parse_poll_absorb reads pre : ∀ num_str clk,
  Forall (λ data, length data ≤ 1) pre →
  absorbed num_str (concat pre) = true →
  length pre ≤ length clk →
  Forall (λ now, (now < end_time)%Z) (take (length pre) clk) →
  Parse.poll end_time num_str clk (pre ++ reads) =
  Parse.poll end_time (num_str +:+ text (concat pre))
    (drop (length pre) clk) reads.
Proof.
  induction pre as [|data pre IH]; intros num_str clk Hone Habs Hlen Hbefore.
  - simpl. by rewrite append_empty.
  - apply Forall_cons in Hone as [Hdata Hone].
    destruct clk as [|now clk]; [simpl in Hlen; lia|].
    simpl in Hbefore. apply Forall_cons in Hbefore as [Hnow Hbefore].
    apply Z.ltb_lt in Hnow. simpl in Hlen.
    destruct data as [|d0 [|d1 data]]; [| |simpl in Hdata; lia].
    + cbn [app Parse.poll]. rewrite Hnow. cbn [concat app length drop].
      apply IH; [done|done|lia|done].
    + cbn [concat app absorbed] in Habs.
      apply andb_true_iff in Habs as [Hacc Habs].
      cbn [app Parse.poll]. rewrite Hacc, Hnow.
      cbn [concat app length drop]. rewrite <- append_text.
      apply IH; [done|done|lia|done].
Qed.
End ParseNumber.

(** The deadline passing after reads that brought nothing or accepted
    bytes: NaN, with the reads after them left. *)
Lemma parse_poll_timeout (end_time late : Z) (after : list Z)
    (rest : list (list byte)) (pre : list (list byte)) :
  ∀ num_str clk,
  pre ≠ [] →
  Forall (λ data, length data ≤ 1) pre →
  absorbed num_str (concat pre) = true →
  length clk = length pre - 1 →
  Forall (λ t, (t < end_time)%Z) clk → (end_time ≤ late)%Z →
  Parse.poll end_time num_str (clk ++ late :: after) (pre ++ rest) =
  Returns NaN (mkWorld after rest).
Proof.
  induction pre as [|data pre' IH]; [done|].
  intros num_str clk _ Hone Habs Hlen Hbefore Hlate.
  apply Forall_cons in Hone as [Hdata Hone].
  apply Z.ltb_ge in Hlate as Hlate'.
  assert (Htest : ∀ s,
    match clk ++ late :: after with
    | [] => Pending
    | t :: clk' =>
        if (t <? end_time)%Z
        then Parse.poll end_time s clk' (pre' ++ rest)
        else Returns NaN (mkWorld clk' (pre' ++ rest))
    end = Returns NaN (mkWorld after rest) ∨
    ∃ t clk', clk = t :: clk' ∧ pre' ≠ [] ∧
      match clk ++ late :: after with
      | [] => Pending
      | t :: clk' =>
          if (t <? end_time)%Z
          then Parse.poll end_time s clk' (pre' ++ rest)
          else Returns NaN (mkWorld clk' (pre' ++ rest))
      end = Parse.poll end_time s (clk' ++ late :: after) (pre' ++ rest)).
  { intros s. destruct clk as [|t clk'].
    - left. destruct pre'; [|simpl in Hlen; lia]. simpl. by rewrite Hlate'.
    - right. exists t, clk'. split; [done|]. split.
      + intros ->. simpl in Hlen. lia.
      + apply Forall_cons in Hbefore as [Ht _]. apply Z.ltb_lt in Ht.
        simpl. by rewrite Ht. }
  destruct data as [|d0 [|d1 data]]; [| |simpl in Hdata; lia].
  - cbn [app Parse.poll].
    destruct (Htest num_str) as [->|(t & clk' & -> & Hne' & ->)]; [done|].
    apply Forall_cons in Hbefore as [_ Hbefore].
    apply IH; [done|done|done|simpl in Hlen; simpl; lia|done|done].
  - cbn [concat app absorbed] in Habs.
    apply andb_true_iff in Habs as [Hacc Habs].
    cbn [app Parse.poll]. rewrite Hacc.
    destruct (Htest (num_str +:+ fromCharCode d0))
      as [->|(t & clk' & -> & Hne' & ->)]; [done|].
    apply Forall_cons in Hbefore as [_ Hbefore].
    apply IH; [done|done|done|simpl in Hlen; simpl; lia|done|done].
Qed.

Section ParseOutcomes.
Variables (T now : Z).
Hypothesis HT : (0 ≤ T)%Z.
Variables (pre : list (list byte)) (sign ds : list byte).
Hypothesis Hone : Forall (λ data, length data ≤ 1) pre.
Hypothesis Hbytes : concat pre = sign ++ ds.
Hypothesis Hsign : sign = [] ∨ sign = ["-"%byte].
Hypothesis Hdigits : Forall digit ds.

Lemma parseInt_signed :
  parseInt (text (sign ++ ds)) = toDouble (signed sign (decimal ds)).
Proof.
  destruct Hsign as [->| ->].
  - by apply parseInt_digits.
  - apply parseInt_minus_digits.
Qed.

(** A byte that is not accepted ends the call: with the parsed value
    when digits were accumulated, with NaN otherwise.  The read that
    brought it is consumed. *)
Lemma parse_terminated clk tm rest :
  ¬ digit tm → (tm = "-"%byte → sign ++ ds ≠ []) →
  length pre ≤ length clk →
  Forall (λ t, (t < now + T)%Z) (take (length pre) clk) →
  parseNumber T (mkWorld (now :: clk) (pre ++ [tm] :: rest)) =
  Returns (if bool_decide (ds = []) then NaN
           else toDouble (signed sign (decimal ds)))
    (mkWorld (drop (length pre) clk) rest).
Proof.
  intros Htm Hminus Hlen Hbefore. unfold parseNumber.
  apply Z.ltb_ge in HT as ->. cbn [clock rx].
  rewrite parse_poll_absorb; [|done| |done|done].
  2:{ rewrite Hbytes. by apply absorbed_sign_digits. }
  rewrite Hbytes. cbn [Parse.poll].
  change ("" +:+ text (sign ++ ds)) with (text (sign ++ ds)).
  assert (Hrej : Parse.accepts (text (sign ++ ds)) (fromCharCode tm) = false).
  { apply not_true_iff_false. rewrite accepts_spec.
    intros [[-> Hempty]|Hd]; [|done].
    apply Hminus; [done|]. by destruct (sign ++ ds). }
  rewrite Hrej. destruct (decide (ds = [])) as [Hds|Hds].
  - rewrite (bool_decide_eq_true_2 (ds = [])) by done.
    rewrite Hds, app_nil_r.
    destruct Hsign as [->| ->]; reflexivity.
  - rewrite (bool_decide_eq_false_2 (ds = [])) by done.
    destruct (text_digits_not_empty sign ds Hsign Hdigits Hds) as [H1 H2].
    rewrite !bool_decide_eq_false_2 by done. cbn [negb andb].
    by rewrite parseInt_signed.
Qed.

(** When the clock passes the deadline after a read that brought no
    terminator, the call returns NaN, whatever was accumulated. *)
Lemma parse_timed_out clk late after rest :
  pre ≠ [] → length clk = length pre - 1 →
  Forall (λ t, (t < now + T)%Z) clk → (now + T ≤ late)%Z →
  parseNumber T (mkWorld (now :: clk ++ late :: after) (pre ++ rest)) =
  Returns NaN (mkWorld after rest).
Proof.
  intros Hne Hlen Hbefore Hlate. unfold parseNumber.
  apply Z.ltb_ge in HT as ->. cbn [clock rx].
  apply parse_poll_timeout; try done.
  rewrite Hbytes. by apply absorbed_sign_digits.
Qed.
End ParseOutcomes.

Lemma toDouble_exact z : (Z.abs z < 2 ^ 53)%Z → toDouble z = Num z.
Proof. intros H. unfold toDouble. apply Z.ltb_lt in H. by rewrite H. Qed.

Lemma toDouble_not_NaN z : toDouble z ≠ NaN.
Proof. unfold toDouble. by destruct (Z.abs z <? 2 ^ 53)%Z. Qed.

Lemma toDouble_signed sign ds :
  Forall digit ds → (decimal ds < 2 ^ 53)%Z →
  toDouble (signed sign (decimal ds)) = Num (signed sign (decimal ds)).
Proof.
  intros Hds Hlt. apply toDouble_exact.
  pose proof (decimal_nonneg ds Hds). destruct sign; simpl; lia.
Qed.

(** C8.  Let the reads of a call bring, before the deadline, an optional
    leading "-" and then one or more digits ([pre], each read holding at
    most one byte), and then a byte [tm] that is not a digit (a "-" after
    the first position is such a byte).  [parseNumber] returns the decimal
    value of the digits, negated after a leading "-", and has consumed the
    read that brought [tm]: the reads after it are the next to come.  The
    value is below 2^53, up to where a JavaScript number holds every
    integer.  Fed "1","2","3","a","b" it returns 123 and leaves "b". *)
Theorem parse_number_scan (T now : Z) (clk : list Z)
    (pre : list (list byte)) (sign ds : list byte) (tm : byte)
    (rest : list (list byte)) :
  (0 ≤ T)%Z →
  Forall (λ data, length data ≤ 1) pre →
  concat pre = sign ++ ds →
  sign = [] ∨ sign = ["-"%byte] →
  Forall digit ds → ds ≠ [] →
  (decimal ds < 2 ^ 53)%Z →
  ¬ digit tm →
  length pre ≤ length clk →
  Forall (λ t, (t < now + T)%Z) (take (length pre) clk) →
  parseNumber T (mkWorld (now :: clk) (pre ++ [tm] :: rest)) =
    Returns (Num (signed sign (decimal ds)))
      (mkWorld (drop (length pre) clk) rest) ∧
  parseNumber 100
    (mkWorld [0; 1; 2; 3; 4; 5]%Z
       [fromUTF8 "1"; fromUTF8 "2"; fromUTF8 "3"; fromUTF8 "a"; fromUTF8 "b"])
  = Returns (Num 123) (mkWorld [4; 5]%Z [fromUTF8 "b"]).
Proof.
  intros HT Hone Hbytes Hsign Hds Hne Hsafe Htm Hlen Hbefore.
  split; [|vm_compute; reflexivity].
  rewrite (parse_terminated T now HT pre sign ds Hone Hbytes Hsign Hds);
    [|done| |done|done].
  - rewrite bool_decide_eq_false_2 by done. by rewrite toDouble_signed.
  - intros _ Hnil. apply Hne. by destruct sign, ds.
Qed.

Lemma parse_number_scan_witness :
  parseNumber 100
    (mkWorld [0; 1; 2; 3; 4; 5]%Z
       ([fromUTF8 "-"; []; fromUTF8 "4"; fromUTF8 "5"]
        ++ ["-"%byte] :: [fromUTF8 "6"])) =
    Returns (Num (signed ["-"%byte] (decimal (fromUTF8 "45"))))
      (mkWorld (drop 4 [1; 2; 3; 4; 5]%Z) [fromUTF8 "6"]) ∧
  parseNumber 100
    (mkWorld [0; 1; 2; 3; 4; 5]%Z
       [fromUTF8 "1"; fromUTF8 "2"; fromUTF8 "3"; fromUTF8 "a"; fromUTF8 "b"])
  = Returns (Num 123) (mkWorld [4; 5]%Z [fromUTF8 "b"]).
Proof.
  apply (parse_number_scan 100 0 [1; 2; 3; 4; 5]%Z
           [fromUTF8 "-"; []; fromUTF8 "4"; fromUTF8 "5"]
           ["-"%byte] (fromUTF8 "45") "-" [fromUTF8 "6"]).
  - lia.
  - repeat constructor.
  - reflexivity.
  - by right.
  - repeat constructor; unfold digit; simpl; lia.
  - discriminate.
  - vm_compute. reflexivity.
  - unfold digit; simpl; lia.
  - simpl; lia.
  - simpl. repeat constructor; lia.
Defined.

(** C9.  Let the reads [pre] of a call bring an optional leading "-" and
    then digits, possibly none.  If a byte that is not accepted comes next
    before the deadline, the call returns NaN when no digit was
    accumulated (the text is empty or only "-") and otherwise the number
    for the parsed integer, which is never NaN and is the integer itself
    below 2^53.  If instead the clock reaches the deadline after the last
    read of [pre], the call returns NaN.  Fed "-","x" it returns NaN; with
    no byte arriving it returns NaN at the deadline.  NaN is the one
    failure value of the function: it stands for both failures. *)
Theorem parse_number_failures (T now : Z) (pre : list (list byte))
    (sign ds : list byte) (rest : list (list byte)) :
  (0 ≤ T)%Z →
  Forall (λ data, length data ≤ 1) pre →
  concat pre = sign ++ ds →
  sign = [] ∨ sign = ["-"%byte] →
  Forall digit ds →
  (∀ clk tm,
     ¬ digit tm → (tm = "-"%byte → sign ++ ds ≠ []) →
     length pre ≤ length clk →
     Forall (λ t, (t < now + T)%Z) (take (length pre) clk) →
     parseNumber T (mkWorld (now :: clk) (pre ++ [tm] :: rest)) =
       Returns (if bool_decide (ds = []) then NaN
                else toDouble (signed sign (decimal ds)))
         (mkWorld (drop (length pre) clk) rest)) ∧
  toDouble (signed sign (decimal ds)) ≠ NaN ∧
  ((decimal ds < 2 ^ 53)%Z →
   toDouble (signed sign (decimal ds)) = Num (signed sign (decimal ds))) ∧
  (∀ clk late after,
     pre ≠ [] → length clk = length pre - 1 →
     Forall (λ t, (t < now + T)%Z) clk → (now + T ≤ late)%Z →
     parseNumber T (mkWorld (now :: clk ++ late :: after) (pre ++ rest)) =
       Returns NaN (mkWorld after rest)) ∧
  parseNumber 100 (mkWorld [0; 1; 2]%Z [fromUTF8 "-"; fromUTF8 "x"])
  = Returns NaN (mkWorld [2]%Z []) ∧
  parseNumber 3 (mkWorld [0; 1; 2; 3; 4]%Z [[]; []; []; []])
  = Returns NaN (mkWorld [4]%Z [[]]).
Proof.
  intros HT Hone Hbytes Hsign Hds.
  split; [|split; [|split; [|split; [|split; vm_compute; reflexivity]]]].
  - intros clk tm. by apply parse_terminated.
  - apply toDouble_not_NaN.
  - by apply toDouble_signed.
  - intros clk late after. by apply parse_timed_out with sign ds.
Qed.

Lemma parse_number_failures_witness :
  (∀ clk tm,
     ¬ digit tm → (tm = "-"%byte → ["-"%byte] ++ [] ≠ []) →
     length [fromUTF8 "-"] ≤ length clk →
     Forall (λ t, (t < 0 + 100)%Z) (take (length [fromUTF8 "-"]) clk) →
     parseNumber 100 (mkWorld (0%Z :: clk) ([fromUTF8 "-"] ++ [tm] :: [])) =
       Returns (if bool_decide (@nil byte = []) then NaN
                else toDouble (signed ["-"%byte] (decimal [])))
         (mkWorld (drop (length [fromUTF8 "-"]) clk) [])) ∧
  toDouble (signed ["-"%byte] (decimal [])) ≠ NaN ∧
  ((decimal [] < 2 ^ 53)%Z →
   toDouble (signed ["-"%byte] (decimal []))
   = Num (signed ["-"%byte] (decimal []))) ∧
  (∀ clk late after,
     [fromUTF8 "-"] ≠ [] → length clk = length [fromUTF8 "-"] - 1 →
     Forall (λ t, (t < 0 + 100)%Z) clk → (0 + 100 ≤ late)%Z →
     parseNumber 100 (mkWorld (0%Z :: clk ++ late :: after)
                        ([fromUTF8 "-"] ++ [])) =
       Returns NaN (mkWorld after [])) ∧
  parseNumber 100 (mkWorld [0; 1; 2]%Z [fromUTF8 "-"; fromUTF8 "x"])
  = Returns NaN (mkWorld [2]%Z []) ∧
  parseNumber 3 (mkWorld [0; 1; 2; 3; 4]%Z [[]; []; []; []])
  = Returns NaN (mkWorld [4]%Z [[]]).
Proof.
  apply (parse_number_failures 100 0 [fromUTF8 "-"] ["-"%byte] [] []).
  - lia.
  - repeat constructor.
  - reflexivity.
  - by right.
  - constructor.
Defined.

(** The rounding of long digit runs is left open: 2^53 - 1 is held as
    it is, and for 2^53 + 1 the result is the double it is rounded to,
    which is not said to be the integer itself. *)
Lemma parseInt_around_safe :
  parseInt "9007199254740991" = Num 9007199254740991 ∧
  parseInt "9007199254740993" = Rounded 9007199254740993.
Proof. split; vm_compute; reflexivity. Qed.

(** * Further properties of the stream utilities *)

(** ** skipNext *)

Lemma skip_poll_never_throws target end_time reads : ∀ clk msg w',
  Skip.poll target end_time clk reads ≠ Throws msg w'.
Proof.
  induction reads as [|data reads IH]; intros clk msg w'; simpl; [done|].
  destruct data; [|done]. destruct clk as [|now clk]; [done|].
  destruct (now <? end_time)%Z; [apply IH|done].
Qed.

(** X1.  [skipNext] throws exactly when the target is empty or the
    timeout is negative, and then the world is as it was. *)
Theorem skipNext_throws_iff (target : string) (T : Z) (w : World) :
  ((target = "" ∨ (T < 0)%Z) ↔
   ∃ msg w', skipNext target T w = Throws msg w') ∧
  (∀ msg w', skipNext target T w = Throws msg w' → w' = w).
Proof.
  unfold skipNext.
  destruct (bool_decide (target = "") || (T <? 0)%Z) eqn:E.
  - split; [|by intros msg w' [= _ ->]]. split; [eauto|]. intros _.
    apply orb_true_iff in E as [E|E].
    + left. by apply bool_decide_eq_true in E.
    + right. by apply Z.ltb_lt.
  - apply orb_false_iff in E as [E1 E2].
    apply bool_decide_eq_false in E1. apply Z.ltb_ge in E2.
    assert (Hno : ∀ msg w',
      match clock w with
      | [] => Pending
      | now :: clk => Skip.poll target (now + T) clk (rx w)
      end ≠ Throws msg w').
    { intros msg w'. destruct (clock w); [done|apply skip_poll_never_throws]. }
    split.
    + split.
      * intros [->|Hneg]; [done|lia].
      * intros (msg & w' & H). by apply Hno in H.
    + intros msg w' H. by apply Hno in H.
Qed.

Lemma skip_poll_idle target end_time (k : nat) : ∀ clk reads,
  k ≤ length clk →
  Forall (λ t, (t < end_time)%Z) (take k clk) →
  Skip.poll target end_time clk (replicate k [] ++ reads) =
  Skip.poll target end_time (drop k clk) reads.
Proof.
  induction k as [|k IH]; intros clk reads Hk Hbefore; [done|].
  destruct clk as [|now clk]; [simpl in Hk; lia|].
  simpl in Hbefore. apply Forall_cons in Hbefore as [Hnow Hbefore].
  apply Z.ltb_lt in Hnow. simpl. rewrite Hnow.
  apply IH; [simpl in Hk; lia|done].
Qed.

Lemma skip_first_byte (target : string) (T now : Z) (clk : list Z)
    (k : nat) (d0 : byte) (more : list byte) (later : list (list byte)) :
  target ≠ "" → (0 ≤ T)%Z →
  k ≤ length clk →
  Forall (λ t, (t < now + T)%Z) (take k clk) →
  skipNext target T
    (mkWorld (now :: clk) (replicate k [] ++ (d0 :: more) :: later)) =
  Returns (bool_decide (fromUTF8 target !! 0 = Some d0))
    (mkWorld (drop k clk) later).
Proof.
  intros Hne HT Hk Hbefore. unfold skipNext.
  rewrite bool_decide_eq_false_2 by done.
  apply Z.ltb_ge in HT as ->. cbn [orb clock rx].
  rewrite skip_poll_idle by done. cbn [Skip.poll]. f_equal.
  unfold strict_eq. apply bool_decide_ext. split; congruence.
Qed.

(** X2.  With a valid call, after any number of empty reads made before
    the deadline, the first read that brings a byte ends [skipNext]: the
    result tells whether that byte is the first byte of the target (the
    rest of the target is not looked at), and the read is consumed
    whatever the result. *)
Theorem skipNext_first_byte (target : string) (T now : Z) (clk : list Z)
    (k : nat) (d0 : byte) (more : list byte) (later : list (list byte)) :
  target ≠ "" → (0 ≤ T)%Z →
  k ≤ length clk →
  Forall (λ t, (t < now + T)%Z) (take k clk) →
  skipNext target T
    (mkWorld (now :: clk) (replicate k [] ++ (d0 :: more) :: later)) =
  Returns (bool_decide (fromUTF8 target !! 0 = Some d0))
    (mkWorld (drop k clk) later).
Proof. apply skip_first_byte. Qed.

Lemma skipNext_first_byte_witness :
  skipNext ",;" 100
    (mkWorld [0; 1; 2; 3]%Z
       (replicate 2 [] ++ (","%byte :: []) :: [fromUTF8 "7"])) =
  Returns (bool_decide (fromUTF8 ",;" !! 0 = Some ","%byte))
    (mkWorld (drop 2 [1; 2; 3]%Z) [fromUTF8 "7"]).
Proof.
  apply (skipNext_first_byte ",;" 100 0 [1; 2; 3]%Z 2 "," [] [fromUTF8 "7"]).
  - discriminate.
  - lia.
  - simpl. lia.
  - simpl. repeat constructor; lia.
Defined.

(** X3.  With a valid call, when every read is empty until a clock reading
    at or past the deadline, [skipNext] returns false; the reads after
    these are left. *)
Theorem skipNext_timeout (target : string) (T now late : Z)
    (clk after : list Z) (later : list (list byte)) :
  target ≠ "" → (0 ≤ T)%Z →
  Forall (λ t, (t < now + T)%Z) clk → (now + T ≤ late)%Z →
  skipNext target T
    (mkWorld (now :: clk ++ late :: after)
       (replicate (S (length clk)) [] ++ later)) =
  Returns false (mkWorld after later).
Proof.
  intros Hne HT Hbefore Hlate. unfold skipNext.
  rewrite bool_decide_eq_false_2 by done.
  apply Z.ltb_ge in HT as ->. cbn [orb clock rx].
  replace (replicate (S (length clk)) [] ++ later)
    with (replicate (length clk) (@nil byte) ++ [] :: later).
  2:{ change (@nil byte :: later) with ([@nil byte] ++ later).
      rewrite app_assoc. f_equal.
      change [@nil byte] with (replicate 1 (@nil byte)).
      rewrite <- replicate_add. f_equal. lia. }
  rewrite skip_poll_idle.
  - rewrite drop_app_length. simpl.
    apply Z.ltb_ge in Hlate as ->. done.
  - rewrite length_app. lia.
  - by rewrite take_app_length.
Qed.

Lemma skipNext_timeout_witness :
  skipNext "," 100
    (mkWorld (0 :: [10; 50] ++ 100 :: [120])%Z
       (replicate (S (length [10; 50]%Z)) [] ++ [fromUTF8 ","])) =
  Returns false (mkWorld [120]%Z [fromUTF8 ","]).
Proof.
  apply (skipNext_timeout "," 100 0 100 [10; 50]%Z [120]%Z [fromUTF8 ","]).
  - discriminate.
  - lia.
  - repeat constructor; lia.
  - lia.
Defined.

(** X4.  [skipNext] followed by [parseNumber], as the callers use them:
    when the next byte is the first byte of the separator and the reads
    after it bring an optional "-", one or more digits of a value below
    2^53 and a byte that is not a digit, all before the two deadlines, the
    first call returns true and the second returns the value, from the
    world the first one left. *)
Theorem skipNext_then_parseNumber (sep : string) (T1 T2 now1 now2 : Z)
    (clk : list Z) (d0 : byte) (pre : list (list byte)) (sign ds : list byte)
    (tm : byte) (rest : list (list byte)) :
  fromUTF8 sep !! 0 = Some d0 → (0 ≤ T1)%Z → (0 ≤ T2)%Z →
  Forall (λ data, length data ≤ 1) pre →
  concat pre = sign ++ ds →
  sign = [] ∨ sign = ["-"%byte] →
  Forall digit ds → ds ≠ [] → (decimal ds < 2 ^ 53)%Z → ¬ digit tm →
  length pre ≤ length clk →
  Forall (λ t, (t < now2 + T2)%Z) (take (length pre) clk) →
  ∃ w1,
    skipNext sep T1
      (mkWorld (now1 :: now2 :: clk) ([d0] :: pre ++ [tm] :: rest)) =
      Returns true w1 ∧
    parseNumber T2 w1 =
      Returns (Num (signed sign (decimal ds)))
        (mkWorld (drop (length pre) clk) rest).
Proof.
  intros Hsep HT1 HT2 Hone Hbytes Hsign Hds Hne Hsafe Htm Hlen Hbefore.
  exists (mkWorld (now2 :: clk) (pre ++ [tm] :: rest)). split.
  - assert (sep ≠ "") by (by intros ->).
    pose proof (skip_first_byte sep T1 now1 (now2 :: clk) 0 d0 []
                  (pre ++ [tm] :: rest)) as Hskip.
    cbn [replicate app drop] in Hskip.
    rewrite Hskip; [|done|done|simpl; lia|constructor].
    by rewrite bool_decide_eq_true_2.
  - rewrite (parse_terminated T2 now2 HT2 pre sign ds Hone Hbytes Hsign Hds);
      [|done| |done|done].
    + rewrite bool_decide_eq_false_2 by done. by rewrite toDouble_signed.
    + intros _ Hnil. apply Hne. by destruct sign, ds.
Qed.

Lemma skipNext_then_parseNumber_witness :
  ∃ w1,
    skipNext "," 100
      (mkWorld (0 :: 5 :: [6; 7; 8])%Z
         ([","%byte] :: [fromUTF8 "-"; fromUTF8 "6"; fromUTF8 "0"]
          ++ [","%byte] :: [fromUTF8 "x"])) =
      Returns true w1 ∧
    parseNumber 500 w1 =
      Returns (Num (signed ["-"%byte] (decimal (fromUTF8 "60"))))
        (mkWorld (drop 3 [6; 7; 8]%Z) [fromUTF8 "x"]).
Proof.
  apply (skipNext_then_parseNumber "," 100 500 0 5 [6; 7; 8]%Z ","
           [fromUTF8 "-"; fromUTF8 "6"; fromUTF8 "0"] ["-"%byte]
           (fromUTF8 "60") "," [fromUTF8 "x"]).
  - reflexivity.
  - lia.
  - lia.
  - repeat constructor.
  - reflexivity.
  - by right.
  - repeat constructor; unfold digit; simpl; lia.
  - discriminate.
  - vm_compute. reflexivity.
  - unfold digit; simpl; lia.
  - simpl; lia.
  - simpl. repeat constructor; lia.
Defined.

(** ** singleFindUtil reports the pattern exactly *)

Lemma single_poll_never_throws pattern end_time reads : ∀ o clk msg w',
  Single.poll pattern end_time o clk reads ≠ Throws msg w'.
Proof.
  induction reads as [|data reads IH]; intros o clk msg w'; simpl; [done|].
  destruct (Single.onData pattern o data); [done|].
  destruct clk as [|now clk]; [done|].
  destruct (now <? end_time)%Z; [apply IH|done].
Qed.

(** X5.  [singleFindUtil] throws exactly when the target is empty or the
    timeout is negative, and then the world is as it was. *)
Theorem singleFindUtil_throws_iff (target : string) (T : Z) (w : World) :
  ((target = "" ∨ (T < 0)%Z) ↔
   ∃ msg w', singleFindUtil target T w = Throws msg w') ∧
  (∀ msg w', singleFindUtil target T w = Throws msg w' → w' = w).
Proof.
  unfold singleFindUtil.
  destruct (bool_decide (target = "") || (T <? 0)%Z) eqn:E.
  - split; [|by intros msg w' [= _ ->]]. split; [eauto|]. intros _.
    apply orb_true_iff in E as [E|E].
    + left. by apply bool_decide_eq_true in E.
    + right. by apply Z.ltb_lt.
  - apply orb_false_iff in E as [E1 E2].
    apply bool_decide_eq_false in E1. apply Z.ltb_ge in E2.
    assert (Hno : ∀ msg w',
      match clock w with
      | [] => Pending
      | now :: clk => Single.poll (fromUTF8 target) (now + T) 0 clk (rx w)
      end ≠ Throws msg w').
    { intros msg w'. destruct (clock w); [done|].
      apply single_poll_never_throws. }
    split.
    + split.
      * intros [->|Hneg]; [done|lia].
      * intros (msg & w' & H). by apply Hno in H.
    + intros msg w' H. by apply Hno in H.
Qed.

Section SingleExact.
Variable pattern : list byte.

Lemma occurs_app_r bs post : occurs pattern bs → occurs pattern (bs ++ post).
Proof.
  intros (pre & post' & ->). exists pre, (post' ++ post).
  by rewrite <- !app_assoc.
Qed.

Lemma occurs_snoc bs b :
  occurs pattern (bs ++ [b]) →
  occurs pattern bs ∨ pattern `suffix_of` bs ++ [b].
Proof.
  intros (pre & post & Heq).
  destruct (decide (post = [])) as [->|Hne].
  - right. exists pre. by rewrite app_nil_r in Heq.
  - left. destruct (exists_last Hne) as (post' & b' & ->).
    rewrite !app_assoc in Heq. apply app_inj_tail in Heq as [Heq _].
    exists pre, post'. by rewrite app_assoc.
Qed.

Lemma single_onData_exact data : ∀ consumed o,
  longest_border pattern consumed o → o < length pattern →
  ¬ occurs pattern consumed →
  match Single.onData pattern o data with
  | Done r => r = true ∧ occurs pattern (consumed ++ data)
  | Scanning o' =>
      o' < length pattern ∧ longest_border pattern (consumed ++ data) o' ∧
      ¬ occurs pattern (consumed ++ data)
  end.
Proof.
  induction data as [|b data IH]; intros consumed o Hlb Ho Hnot; simpl.
  - by rewrite app_nil_r.
  - pose proof (single_onByte_border pattern consumed o b Hlb Ho) as Hstep.
    destruct (Single.onByte pattern o b) as [r|o'].
    + destruct Hstep as [-> [[_ Hsuf] _]]. split; [done|].
      rewrite firstn_all in Hsuf. destruct Hsuf as [pre Hpre].
      exists pre, data.
      change (b :: data) with ([b] ++ data).
      rewrite app_assoc, Hpre. by rewrite <- !app_assoc.
    + destruct Hstep as [Ho' Hlb'].
      assert (Hnot' : ¬ occurs pattern (consumed ++ [b])).
      { intros [Hocc|Hsuf]%occurs_snoc; [done|].
        destruct Hlb' as [_ Hmax].
        assert (border pattern (consumed ++ [b]) (length pattern)) as Hb.
        { split; [done|]. by rewrite firstn_all. }
        apply Hmax in Hb. lia. }
      specialize (IH (consumed ++ [b]) o' Hlb' Ho' Hnot').
      rewrite <- app_assoc in IH. done.
Qed.

(** [occurs] among the scan's outcomes, from the start of a call. *)
Lemma single_scan_outcome data :
  0 < length pattern →
  match Single.onData pattern 0 data with
  | Done r => r = true ∧ occurs pattern data
  | Scanning _ => ¬ occurs pattern data
  end.
Proof.
  intros Hne.
  assert (Hnot : ¬ occurs pattern []).
  { intros (pre & post & Heq). symmetry in Heq.
    apply app_eq_nil in Heq as [_ Heq]. apply app_eq_nil in Heq as [Heq _].
    subst pattern. simpl in Hne. lia. }
  pose proof (single_onData_exact data [] 0
                (longest_border_start pattern) Hne Hnot) as H.
  simpl in H. destruct (Single.onData pattern 0 data); [done|].
  by destruct H as (_ & _ & H).
Qed.

(** What a returned poll has seen: the reads up to the one it returned
    from, and either a completed scan of their bytes or a clock reading
    at or past the deadline after a scan that did not complete. *)
Lemma single_poll_inv end_time reads : ∀ clk o r w',
  Single.poll pattern end_time o clk reads = Returns r w' →
  ∃ k, k < length reads ∧ rx w' = drop (S k) reads ∧
    ((Single.onData pattern o (concat (take (S k) reads)) = Done r ∧
      clock w' = drop k clk) ∨
     (r = false ∧
      (∃ o', Single.onData pattern o (concat (take (S k) reads))
             = Scanning o') ∧
      clock w' = drop (S k) clk ∧
      ∃ t, clk !! k = Some t ∧ (end_time ≤ t)%Z)).
Proof.
  induction reads as [|data reads IH]; intros clk o r w'; [done|].
  cbn [Single.poll].
  destruct (Single.onData pattern o data) as [r0|o1] eqn:Hd.
  - intros [= <- <-]. exists 0. split; [simpl; lia|]. split; [done|].
    left. split; [|done]. simpl. by rewrite app_nil_r.
  - destruct clk as [|now clk]; [done|].
    destruct (now <? end_time)%Z eqn:Hnow.
    + intros Hpoll. destruct (IH _ _ _ _ Hpoll) as (k & Hk & Hrx & Hcase).
      exists (S k). split; [simpl; lia|]. split; [done|].
      cbn [take concat]. rewrite single_onData_app, Hd. done.
    + intros [= <- <-]. apply Z.ltb_ge in Hnow.
      exists 0. split; [simpl; lia|]. split; [done|]. right.
      split; [done|]. split; [|split; [done|eauto]].
      exists o1. simpl. by rewrite app_nil_r.
Qed.
End SingleExact.

(** X6.  A scan of [singleFindUtil] from the start of a call has completed
    exactly when the pattern lies contiguously in the bytes scanned. *)
Theorem single_scan_exact (pattern data : list byte) :
  0 < length pattern →
  Single.onData pattern 0 data = Done true ↔ occurs pattern data.
Proof.
  intros Hne. pose proof (single_scan_outcome pattern data Hne) as H.
  destruct (Single.onData pattern 0 data) as [r|o].
  - destruct H as [-> Hocc]. done.
  - split; [done|]. intros Hocc. done.
Qed.

Lemma single_scan_exact_witness :
  Single.onData (fromUTF8 "ABAB") 0 (fromUTF8 "xABABABy") = Done true ↔
  occurs (fromUTF8 "ABAB") (fromUTF8 "xABABABy").
Proof. apply single_scan_exact. simpl. lia. Defined.

Lemma single_returns (target : string) (T : Z) (w w' : World)
    (r : bool) :
  singleFindUtil target T w = Returns r w' →
  ∃ k, k < length (rx w) ∧ rx w' = drop (S k) (rx w) ∧
    if r then occurs (fromUTF8 target) (concat (take (S k) (rx w)))
    else ¬ occurs (fromUTF8 target) (concat (take (S k) (rx w))) ∧
         ∃ now clk t, clock w = now :: clk ∧ clk !! k = Some t ∧
                      (now + T ≤ t)%Z.
Proof.
  unfold singleFindUtil.
  destruct (bool_decide (target = "") || (T <? 0)%Z) eqn:E; [done|].
  apply orb_false_iff in E as [E _]. apply bool_decide_eq_false in E.
  apply fromUTF8_nonempty in E.
  destruct (clock w) as [|now clk] eqn:Hclock; [done|].
  intros Hpoll.
  destruct (single_poll_inv _ _ _ _ _ _ _ Hpoll) as (k & Hk & Hrx & Hcase).
  exists k. split; [done|]. split; [done|].
  pose proof (single_scan_outcome (fromUTF8 target)
                (concat (take (S k) (rx w))) E) as Hout.
  destruct Hcase as [[Hd _]|(-> & [o' Hd] & _ & t & Ht & Hlate)].
  - rewrite Hd in Hout. by destruct Hout as [-> Hocc].
  - rewrite Hd in Hout. split; [done|]. by exists now, clk, t.
Qed.

(** X7.  The verdict of [singleFindUtil].  A call that returns has read
    the serial port some [k + 1] times and leaves the reads after these.
    It returns true only if the target lies contiguously in the bytes of
    these reads; it returns false only if it does not, and then the clock
    reading after the last of them was at or past the deadline. *)
Theorem singleFindUtil_verdict (target : string) (T : Z) (w w' : World)
    (r : bool) :
  singleFindUtil target T w = Returns r w' →
  ∃ k, k < length (rx w) ∧ rx w' = drop (S k) (rx w) ∧
    if r then occurs (fromUTF8 target) (concat (take (S k) (rx w)))
    else ¬ occurs (fromUTF8 target) (concat (take (S k) (rx w))) ∧
         ∃ now clk t, clock w = now :: clk ∧ clk !! k = Some t ∧
                      (now + T ≤ t)%Z.
Proof. apply single_returns. Qed.

Lemma singleFindUtil_verdict_witness :
  ∃ k, k < length [fromUTF8 "xO"; fromUTF8 "y"; fromUTF8 "K"] ∧
    rx (mkWorld [] []) =
      drop (S k) [fromUTF8 "xO"; fromUTF8 "y"; fromUTF8 "K"] ∧
    ¬ occurs (fromUTF8 "OK")
        (concat (take (S k) [fromUTF8 "xO"; fromUTF8 "y"; fromUTF8 "K"])) ∧
    ∃ now clk t, clock (mkWorld [0; 1; 2; 9]%Z
                          [fromUTF8 "xO"; fromUTF8 "y"; fromUTF8 "K"])
                 = now :: clk ∧ clk !! k = Some t ∧ (now + 5 ≤ t)%Z.
Proof.
  apply (singleFindUtil_verdict "OK" 5
           (mkWorld [0; 1; 2; 9]%Z [fromUTF8 "xO"; fromUTF8 "y"; fromUTF8 "K"])
           (mkWorld [] []) false).
  vm_compute. reflexivity.
Defined.

(** ** multiFindUtil reports bytes that came in order *)

Lemma in_order_nil_r t : in_order t [] = true → t = [].
Proof. by destruct t. Qed.

Lemma in_order_tail bs : ∀ x t,
  in_order (x :: t) bs = true → in_order t bs = true.
Proof.
  induction bs as [|b bs IH]; intros x t; simpl; [done|].
  case_bool_decide as Hx.
  - destruct t as [|y t]; [done|]. simpl. intros H.
    case_bool_decide; [by eapply IH|done].
  - intros H. apply IH in H. destruct t as [|y t]; [done|]. simpl.
    case_bool_decide; [by eapply IH|done].
Qed.

(** [in_order] decides stdpp's [sublist]. *)
Lemma in_order_sublist t bs : in_order t bs = true ↔ t `sublist_of` bs.
Proof.
  split.
  - revert t. induction bs as [|b bs IH]; intros t H.
    + apply in_order_nil_r in H as ->. constructor.
    + destruct t as [|x t]; [apply sublist_nil_l|]. simpl in H.
      case_bool_decide as Hx.
      * subst x. apply sublist_skip. by apply IH.
      * apply sublist_cons. by apply IH.
  - induction 1 as [|x l1 l2 _ IH|x l1 l2 _ IH]; [done| |].
    + simpl. by rewrite bool_decide_eq_true_2.
    + destruct l1 as [|y l1]; [done|]. simpl.
      case_bool_decide; [by eapply in_order_tail|done].
Qed.

Lemma multi_poll_never_throws bts end_time reads : ∀ offs clk msg w',
  Multi.poll bts end_time offs clk reads ≠ Throws msg w'.
Proof.
  induction reads as [|data reads IH]; intros offs clk msg w'; simpl; [done|].
  destruct (Multi.onData bts offs data); [done|].
  destruct clk as [|now clk]; [done|].
  destruct (now <? end_time)%Z; [apply IH|done].
Qed.

Section MultiInOrder.
Variable byte_targets : list (list byte).

(** Every stored offset counts bytes of its pattern that have come, in
    order, among the consumed bytes. *)
Lemma multi_onByte_sound offsets consumed b :
  length offsets = length byte_targets →
  (∀ j t o, byte_targets !! j = Some t → offsets !! j = Some o →
            take o t `sublist_of` consumed) →
  match Multi.onByte byte_targets offsets b with
  | Done j =>
      ∃ t, byte_targets !! j = Some t ∧ t ≠ [] ∧
           t `sublist_of` consumed ++ [b]
  | Scanning offsets' =>
      length offsets' = length offsets ∧
      ∀ j t o, byte_targets !! j = Some t → offsets' !! j = Some o →
               take o t `sublist_of` consumed ++ [b]
  end.
Proof.
  intros Hlen Hinv.
  pose proof (multi_onByte_spec byte_targets offsets b Hlen) as H.
  destruct (Multi.onByte byte_targets offsets b) as [j|offsets'].
  - destruct H as [(t & o & Ht & Ho & Hb & Hl) _]. exists t.
    split; [done|]. split; [by destruct t|].
    rewrite <- (firstn_all t), <- Hl, (take_S_r _ _ _ Hb).
    apply sublist_app; [by eapply Hinv|done].
  - destruct H as (Hl & _ & Hupd). split; [done|].
    intros j t o' Ht Ho'.
    destruct (lookup_lt_is_Some_2 offsets j) as [o Ho].
    { apply lookup_lt_Some in Ht. lia. }
    rewrite (Hupd j t o Ht Ho) in Ho'. injection Ho' as <-.
    case_decide as Hb.
    + rewrite (take_S_r _ _ _ Hb). apply sublist_app; [by eapply Hinv|done].
    + apply sublist_inserts_r. by eapply Hinv.
Qed.

Lemma multi_onData_sound data : ∀ offsets consumed,
  length offsets = length byte_targets →
  (∀ j t o, byte_targets !! j = Some t → offsets !! j = Some o →
            take o t `sublist_of` consumed) →
  match Multi.onData byte_targets offsets data with
  | Done j =>
      ∃ t, byte_targets !! j = Some t ∧ t ≠ [] ∧
           t `sublist_of` consumed ++ data
  | Scanning offsets' =>
      length offsets' = length offsets ∧
      ∀ j t o, byte_targets !! j = Some t → offsets' !! j = Some o →
               take o t `sublist_of` consumed ++ data
  end.
Proof.
  induction data as [|b data IH]; intros offsets consumed Hlen Hinv; simpl.
  - rewrite app_nil_r. done.
  - pose proof (multi_onByte_sound offsets consumed b Hlen Hinv) as Hstep.
    destruct (Multi.onByte byte_targets offsets b) as [j|o1].
    + destruct Hstep as (t & Ht & Hne & Hsub). exists t.
      split; [done|]. split; [done|].
      change (b :: data) with ([b] ++ data). rewrite app_assoc.
      by apply sublist_inserts_r.
    + destruct Hstep as [Hl1 Hinv1].
      specialize (IH o1 (consumed ++ [b]) ltac:(congruence) Hinv1).
      rewrite <- app_assoc in IH.
      destruct (Multi.onData byte_targets o1 data); [done|].
      destruct IH as [Hl2 Hinv2]. split; [congruence|done].
Qed.

Lemma multi_start_sound :
  ∀ j t o, byte_targets !! j = Some t →
    replicate (length byte_targets) 0 !! j = Some o →
    take o t `sublist_of` [].
Proof.
  intros j t o _ Ho. apply lookup_replicate_1 in Ho as [-> _]. done.
Qed.

(** Bytes of pattern [j] from index [i] on that come in order, to a
    stored offset that is at least [i], complete a pattern. *)
Lemma multi_onData_feed_in_order j t data : ∀ i offsets offsets' o,
  byte_targets !! j = Some t →
  length offsets = length byte_targets →
  offsets !! j = Some o → i ≤ o < length t →
  drop i t `sublist_of` data →
  Multi.onData byte_targets offsets data ≠ Scanning offsets'.
Proof.
  induction data as [|b data IH]; intros i offsets offsets' o Hj Hlen Ho Hio Hsub.
  - apply sublist_nil_r in Hsub. apply (f_equal length) in Hsub.
    rewrite length_drop in Hsub. simpl in Hsub. lia.
  - simpl.
    destruct (Multi.onByte byte_targets offsets b) as [?|o1] eqn:Hstep;
      [done|].
    destruct (multi_onByte_bound byte_targets j t Hj _ _ _ _ Hlen Hstep Ho
                ltac:(lia)) as (o1' & Ho1 & Hle & Hadv).
    pose proof (multi_onByte_spec byte_targets offsets b Hlen) as H.
    rewrite Hstep in H. destruct H as (Hl1 & _).
    apply sublist_cons_r in Hsub as [Hsub|(l' & Hl' & Hsub)].
    + apply (IH i o1 offsets' o1'); [done|congruence|done|lia|done].
    + assert (Hb : t !! i = Some b).
      { pose proof (lookup_drop t i 0) as Hl. rewrite Hl' in Hl.
        simpl in Hl. rewrite Nat.add_0_r in Hl. done. }
      assert (Hr' : l' = drop (S i) t).
      { pose proof (drop_drop t 1 i) as Hdd. rewrite Hl' in Hdd.
        simpl in Hdd. rewrite drop_0 in Hdd.
        replace (i + 1) with (S i) in Hdd by lia. done. }
      assert (S i ≤ o1').
      { destruct (decide (o = i)) as [->|]; [|lia]. rewrite Hadv; done. }
      apply (IH (S i) o1 offsets' o1'); [done|congruence|done|lia|].
      by rewrite <- Hr'.
Qed.

Lemma multi_scan_in_order j t data :
  byte_targets !! j = Some t → 0 < length t →
  t `sublist_of` data →
  ∃ i, i < length byte_targets ∧
    Multi.onData byte_targets (replicate (length byte_targets) 0) data
    = Done i.
Proof.
  intros Hj Hne Hsub.
  set (offsets := replicate (length byte_targets) 0).
  assert (Hlen : length offsets = length byte_targets)
    by apply length_replicate.
  destruct (Multi.onData byte_targets offsets data) as [i|o'] eqn:Hd.
  - exists i. split; [|done]. by eapply multi_onData_done.
  - exfalso.
    refine (multi_onData_feed_in_order j t data 0 offsets o' 0
              Hj Hlen _ _ _ Hd).
    + apply lookup_replicate_2. by apply lookup_lt_Some in Hj.
    + lia.
    + by rewrite drop_0.
Qed.

Lemma multi_poll_inv end_time reads : ∀ clk offsets r w',
  Multi.poll byte_targets end_time offsets clk reads = Returns r w' →
  ∃ k, k < length reads ∧ rx w' = drop (S k) reads ∧
    ((∃ j, r = Z.of_nat j ∧
        Multi.onData byte_targets offsets (concat (take (S k) reads))
        = Done j ∧
      clock w' = drop k clk) ∨
     (r = (-1)%Z ∧
      (∃ o', Multi.onData byte_targets offsets (concat (take (S k) reads))
             = Scanning o') ∧
      clock w' = drop (S k) clk ∧
      ∃ t, clk !! k = Some t ∧ (end_time ≤ t)%Z)).
Proof.
  induction reads as [|data reads IH]; intros clk offsets r w'; [done|].
  cbn [Multi.poll].
  destruct (Multi.onData byte_targets offsets data) as [j|o1] eqn:Hd.
  - intros [= <- <-]. exists 0. split; [simpl; lia|]. split; [done|].
    left. exists j. split; [done|]. split; [|done].
    simpl. by rewrite app_nil_r.
  - destruct clk as [|now clk]; [done|].
    destruct (now <? end_time)%Z eqn:Hnow.
    + intros Hpoll. destruct (IH _ _ _ _ Hpoll) as (k & Hk & Hrx & Hcase).
      exists (S k). split; [simpl; lia|]. split; [done|].
      cbn [take concat]. rewrite multi_onData_app, Hd. done.
    + intros [= <- <-]. apply Z.ltb_ge in Hnow.
      exists 0. split; [simpl; lia|]. split; [done|]. right.
      split; [done|]. split; [|split; [done|eauto]].
      exists o1. simpl. by rewrite app_nil_r.
Qed.
End MultiInOrder.

Lemma fromUTF8_lookup (targets : list string) (j : nat) (t : list byte) :
  (fromUTF8 <$> targets) !! j = Some t → t ≠ [] →
  ∃ P, targets !! j = Some P ∧ P ≠ "" ∧ t = fromUTF8 P.
Proof.
  rewrite list_lookup_fmap. destruct (targets !! j) as [P|]; [|done].
  intros [= <-] Hne. exists P. split; [done|]. split; [|done].
  by intros ->.
Qed.

(** X8.  After a match the rest of the read it completed in is gone: the
    call returns from that read whatever follows the match in it, and the
    world it leaves starts at the next read.  For [singleFindUtil] a match
    is the target lying contiguously in the read; for [multiFindUtil] it
    is the bytes of a target coming in order in the read. *)
Theorem match_drops_rest_of_read (targets : list string) (P : string)
    (T now : Z) (clk : list Z) (data post : list byte)
    (later : list (list byte)) :
  P ∈ targets → P ≠ "" → (0 ≤ T)%Z →
  (occurs (fromUTF8 P) data →
   singleFindUtil P T (mkWorld (now :: clk) ((data ++ post) :: later)) =
   Returns true (mkWorld clk later)) ∧
  (fromUTF8 P `sublist_of` data →
   ∃ j, j < length targets ∧
     multiFindUtil targets T (mkWorld (now :: clk) ((data ++ post) :: later)) =
     Returns (Z.of_nat j) (mkWorld clk later)).
Proof.
  intros Hin Hne HT. apply Z.ltb_ge in HT.
  apply fromUTF8_nonempty in Hne as Hlen. split.
  - intros Hocc. unfold singleFindUtil.
    rewrite bool_decide_eq_false_2 by done. rewrite HT.
    cbn [orb clock rx Single.poll]. rewrite single_onData_app.
    pose proof (single_scan_outcome _ data Hlen) as Hout.
    destruct (Single.onData (fromUTF8 P) 0 data) as [r|o]; [|done].
    by destruct Hout as [-> _].
  - intros Hsub. unfold multiFindUtil.
    apply list_elem_of_lookup_1 in Hin as [i Hi].
    assert (length targets ≠ 0).
    { apply lookup_lt_Some in Hi. lia. }
    rewrite bool_decide_eq_false_2 by done. rewrite HT.
    cbn [orb clock rx Multi.poll]. rewrite multi_onData_app.
    assert (Hbi : (fromUTF8 <$> targets) !! i = Some (fromUTF8 P)).
    { by rewrite list_lookup_fmap, Hi. }
    destruct (multi_scan_in_order _ i _ data Hbi Hlen Hsub) as (j & Hj & ->).
    exists j. rewrite length_fmap in Hj. done.
Qed.

Lemma match_drops_rest_of_read_witness :
  (occurs (fromUTF8 "OK") (fromUTF8 "xOK") →
   singleFindUtil "OK" 10
     (mkWorld (0 :: [1])%Z ((fromUTF8 "xOK" ++ fromUTF8 "tail") :: [[]])) =
   Returns true (mkWorld [1]%Z [[]])) ∧
  (fromUTF8 "OK" `sublist_of` fromUTF8 "xOK" →
   ∃ j, j < length ["ERROR"; "OK"] ∧
     multiFindUtil ["ERROR"; "OK"] 10
       (mkWorld (0 :: [1])%Z ((fromUTF8 "xOK" ++ fromUTF8 "tail") :: [[]])) =
     Returns (Z.of_nat j) (mkWorld [1]%Z [[]])).
Proof.
  apply (match_drops_rest_of_read ["ERROR"; "OK"] "OK" 10 0 [1]%Z
           (fromUTF8 "xOK") (fromUTF8 "tail") [[]]).
  - apply list_elem_of_In. simpl. tauto.
  - discriminate.
  - lia.
Defined.

(** X9.  What [multiFindUtil] returns is -1 or the index of a target of
    the list; that target is not the empty string, and its bytes have
    come, in order, among the bytes of the reads the call made. *)
Theorem multiFindUtil_index_sound (targets : list string) (T : Z)
    (w w' : World) (r : Z) :
  multiFindUtil targets T w = Returns r w' →
  r = (-1)%Z ∨
  ∃ j P k, r = Z.of_nat j ∧ targets !! j = Some P ∧ P ≠ "" ∧
    k < length (rx w) ∧ rx w' = drop (S k) (rx w) ∧
    fromUTF8 P `sublist_of` concat (take (S k) (rx w)).
Proof.
  unfold multiFindUtil.
  destruct (bool_decide (length targets = 0) || (T <? 0)%Z); [done|].
  destruct (clock w) as [|now clk]; [done|]. intros Hpoll.
  destruct (multi_poll_inv _ _ _ _ _ _ _ Hpoll) as (k & Hk & Hrx & Hcase).
  destruct Hcase as [(j & -> & Hd & _)|(-> & _)]; [right|by left].
  pose proof (multi_onData_sound (fromUTF8 <$> targets)
                (concat (take (S k) (rx w)))
                (replicate (length (fromUTF8 <$> targets)) 0) []
                (length_replicate _ _)
                (multi_start_sound _)) as Hs.
  rewrite Hd in Hs. destruct Hs as (t & Ht & Hne & Hsub).
  destruct (fromUTF8_lookup _ _ _ Ht Hne) as (P & HP & HPne & ->).
  exists j, P, k. done.
Qed.

Lemma multiFindUtil_index_sound_witness :
  0%Z = (-1)%Z ∨
  ∃ j P k, 0%Z = Z.of_nat j ∧ ["AB"] !! j = Some P ∧ P ≠ "" ∧
    k < length [fromUTF8 "A"; fromUTF8 "C"; fromUTF8 "B"; []] ∧
    rx (mkWorld [3; 10]%Z [[]]) =
      drop (S k) [fromUTF8 "A"; fromUTF8 "C"; fromUTF8 "B"; []] ∧
    fromUTF8 P `sublist_of`
      concat (take (S k) [fromUTF8 "A"; fromUTF8 "C"; fromUTF8 "B"; []]).
Proof.
  apply (multiFindUtil_index_sound ["AB"] 10
           (mkWorld [0; 1; 2; 3; 10]%Z
              [fromUTF8 "A"; fromUTF8 "C"; fromUTF8 "B"; []])
           (mkWorld [3; 10]%Z [[]]) 0).
  vm_compute. reflexivity.
Defined.

(** X10.  [multiFindUtil] returns -1 only after a clock reading at or past
    the deadline, and only when the bytes of no non-empty target have come
    in order among the bytes of the reads it made. *)
Theorem multiFindUtil_not_found (targets : list string) (T : Z)
    (w w' : World) :
  multiFindUtil targets T w = Returns (-1)%Z w' →
  ∃ now clk k t,
    clock w = now :: clk ∧ clk !! k = Some t ∧ (now + T ≤ t)%Z ∧
    k < length (rx w) ∧ rx w' = drop (S k) (rx w) ∧
    ∀ P, P ∈ targets → P ≠ "" →
         ¬ fromUTF8 P `sublist_of` concat (take (S k) (rx w)).
Proof.
  unfold multiFindUtil.
  destruct (bool_decide (length targets = 0) || (T <? 0)%Z); [done|].
  destruct (clock w) as [|now clk] eqn:Hclock; [done|]. intros Hpoll.
  destruct (multi_poll_inv _ _ _ _ _ _ _ Hpoll) as (k & Hk & Hrx & Hcase).
  destruct Hcase as [(j & Hj & _)|(_ & [o' Hd] & _ & t & Ht & Hlate)]; [lia|].
  exists now, clk, k, t. repeat (split; [done|]).
  intros P Hin Hne Hsub.
  apply list_elem_of_lookup_1 in Hin as [i Hi].
  assert (Hbi : (fromUTF8 <$> targets) !! i = Some (fromUTF8 P)).
  { by rewrite list_lookup_fmap, Hi. }
  destruct (multi_scan_in_order _ i _ _ Hbi (fromUTF8_nonempty _ Hne) Hsub)
    as (j & _ & Hdone).
  congruence.
Qed.

Lemma multiFindUtil_not_found_witness :
  ∃ now clk k t,
    clock (mkWorld [0; 1; 9]%Z [fromUTF8 "KO"; fromUTF8 "x"; []])
    = now :: clk ∧ clk !! k = Some t ∧ (now + 5 ≤ t)%Z ∧
    k < length [fromUTF8 "KO"; fromUTF8 "x"; []] ∧
    rx (mkWorld [] [[]]) = drop (S k) [fromUTF8 "KO"; fromUTF8 "x"; []] ∧
    ∀ P, P ∈ ["OK"; "ERROR"] → P ≠ "" →
         ¬ fromUTF8 P `sublist_of`
             concat (take (S k) [fromUTF8 "KO"; fromUTF8 "x"; []]).
Proof.
  apply (multiFindUtil_not_found ["OK"; "ERROR"] 5
           (mkWorld [0; 1; 9]%Z [fromUTF8 "KO"; fromUTF8 "x"; []])
           (mkWorld [] [[]])).
  vm_compute. reflexivity.
Defined.

(** X11.  [multiFindUtil] reports a target as soon as its bytes have come
    in order, side by side or not: when the bytes of a non-empty target of
    the list are a subsequence of the bytes of the first [n] reads, all
    made before the deadline, the call returns the index of a target from
    one of these reads. *)
Theorem multiFindUtil_in_order_found (targets : list string) (P : string)
    (T : Z) (w : World) (now : Z) (clk : list Z) (n : nat) :
  P ∈ targets → P ≠ "" → (0 ≤ T)%Z →
  clock w = now :: clk →
  n ≤ length (rx w) → n - 1 ≤ length clk →
  Forall (λ t, (t < now + T)%Z) (take (n - 1) clk) →
  fromUTF8 P `sublist_of` concat (take n (rx w)) →
  ∃ j k, j < length targets ∧ k < n ∧
    multiFindUtil targets T w =
      Returns (Z.of_nat j) (mkWorld (drop k clk) (drop (S k) (rx w))).
Proof.
  intros Hin Hne HT Hclock Hn Hc Hbefore Hsub.
  apply Z.ltb_ge in HT. apply fromUTF8_nonempty in Hne as Hlen.
  unfold multiFindUtil.
  apply list_elem_of_lookup_1 in Hin as [i Hi].
  assert (length targets ≠ 0).
  { apply lookup_lt_Some in Hi. lia. }
  rewrite bool_decide_eq_false_2 by done. rewrite HT, Hclock. simpl.
  assert (Hbi : (fromUTF8 <$> targets) !! i = Some (fromUTF8 P)).
  { by rewrite list_lookup_fmap, Hi. }
  destruct (multi_scan_in_order _ i _ _ Hbi Hlen Hsub) as (j & Hj & Hdone).
  destruct (multi_poll_hit (now + T) _ n (rx w) clk _ j Hn Hc Hbefore Hdone)
    as (k & Hk & Hpoll).
  exists j, k. rewrite length_fmap in Hj. done.
Qed.

Lemma multiFindUtil_in_order_found_witness :
  ∃ j k, j < length ["ERROR"; "OK"] ∧ k < 3 ∧
    multiFindUtil ["ERROR"; "OK"] 50
      (mkWorld [0; 10; 20; 30]%Z [fromUTF8 "xO"; fromUTF8 "y"; fromUTF8 "Kz"])
    = Returns (Z.of_nat j)
        (mkWorld (drop k [10; 20; 30]%Z)
           (drop (S k) [fromUTF8 "xO"; fromUTF8 "y"; fromUTF8 "Kz"])).
Proof.
  apply (multiFindUtil_in_order_found ["ERROR"; "OK"] "OK" 50
           (mkWorld [0; 10; 20; 30]%Z
              [fromUTF8 "xO"; fromUTF8 "y"; fromUTF8 "Kz"])
           0 [10; 20; 30]%Z 3).
  - apply list_elem_of_In. simpl. tauto.
  - discriminate.
  - lia.
  - reflexivity.
  - simpl. lia.
  - simpl. lia.
  - simpl. repeat constructor; lia.
  - apply in_order_sublist. reflexivity.
Defined.

Lemma multi_onByte_monotone byte_targets offsets offsets' b :
  length offsets = length byte_targets →
  Multi.onByte byte_targets offsets b = Scanning offsets' →
  length offsets' = length offsets ∧
  ∀ j t o, byte_targets !! j = Some t → offsets !! j = Some o →
    ∃ o', offsets' !! j = Some o' ∧ o ≤ o' ∧
          (o < length t → o' < length t) ∧ (t = [] → o' = o).
Proof.
  intros Hlen Hstep.
  pose proof (multi_onByte_spec byte_targets offsets b Hlen) as H.
  rewrite Hstep in H. destruct H as (Hl & Hnone & Hupd). split; [done|].
  intros j t o Ht Ho. rewrite (Hupd j t o Ht Ho). case_decide as Hb.
  - exists (S o). split; [done|]. split; [lia|]. split.
    + intros Hlt. assert (S o ≠ length t); [|lia].
      intros Hfull. apply (Hnone j). exists t, o. done.
    + intros ->. done.
  - exists o. done.
Qed.

Lemma multi_onData_monotone byte_targets data : ∀ offsets offsets',
  length offsets = length byte_targets →
  Multi.onData byte_targets offsets data = Scanning offsets' →
  length offsets' = length offsets ∧
  ∀ j t o, byte_targets !! j = Some t → offsets !! j = Some o →
    ∃ o', offsets' !! j = Some o' ∧ o ≤ o' ∧
          (o < length t → o' < length t) ∧ (t = [] → o' = o).
Proof.
  induction data as [|b data IH]; intros offsets offsets' Hlen; simpl.
  - intros [= <-]. split; [done|]. intros j t o _ Ho. exists o. done.
  - destruct (Multi.onByte byte_targets offsets b) as [i|o1] eqn:Hstep;
      [done|].
    intros Hd.
    destruct (multi_onByte_monotone _ _ _ _ Hlen Hstep) as [Hl1 Hm1].
    destruct (IH o1 offsets' ltac:(congruence) Hd) as [Hl2 Hm2].
    split; [congruence|]. intros j t o Ht Ho.
    destruct (Hm1 j t o Ht Ho) as (o1' & Ho1 & Hle1 & Hlt1 & He1).
    destruct (Hm2 j t o1' Ht Ho1) as (o' & Ho' & Hle2 & Hlt2 & He2).
    exists o'. split; [done|]. split; [lia|]. split; [auto|].
    intros Hnil. rewrite He2, He1; done.
Qed.

(** X12.  While a scan of [multiFindUtil] goes on, the list of stored
    offsets keeps its length and no stored offset, of whatever pattern,
    ever goes down.  An offset that is below its pattern's length stays
    below it, which from the start of a call is the case of every
    non-empty pattern; the offset of an empty pattern (the list may hold
    one) stays what it was. *)
Theorem multi_offsets_never_decrease (byte_targets : list (list byte))
    (offsets offsets' : list nat) (data : list byte) :
  length offsets = length byte_targets →
  Multi.onData byte_targets offsets data = Scanning offsets' →
  length offsets' = length offsets ∧
  ∀ j t o, byte_targets !! j = Some t → offsets !! j = Some o →
    ∃ o', offsets' !! j = Some o' ∧ o ≤ o' ∧
          (o < length t → o' < length t) ∧ (t = [] → o' = o).
Proof. apply multi_onData_monotone. Qed.

Lemma multi_offsets_never_decrease_witness :
  length [2; 0; 0] = length [1; 0; 0] ∧
  ∀ j t o, [fromUTF8 "ABAB"; []; fromUTF8 "OK"] !! j = Some t →
    [1; 0; 0] !! j = Some o →
    ∃ o', [2; 0; 0] !! j = Some o' ∧ o ≤ o' ∧
          (o < length t → o' < length t) ∧ (t = [] → o' = o).
Proof.
  apply (multi_offsets_never_decrease [fromUTF8 "ABAB"; []; fromUTF8 "OK"]
           [1; 0; 0] [2; 0; 0] (fromUTF8 "BCx")); reflexivity.
Defined.

(** ** parseNumber: argument check and the first read *)

Lemma parse_poll_never_throws end_time reads : ∀ num_str clk msg w',
  Parse.poll end_time num_str clk reads ≠ Throws msg w'.
Proof.
  induction reads as [|data reads IH]; intros num_str clk msg w'; [done|].
  cbn [Parse.poll].
  assert (Htest : ∀ s,
    match clk with
    | [] => Pending
    | now :: clk' =>
        if (now <? end_time)%Z then Parse.poll end_time s clk' reads
        else Returns NaN (mkWorld clk' reads)
    end ≠ Throws msg w').
  { intros s. destruct clk as [|now clk]; [done|].
    destruct (now <? end_time)%Z; [apply IH|done]. }
  destruct data as [|d0 data]; [apply Htest|].
  destruct (Parse.accepts num_str (fromCharCode d0)); [apply Htest|].
  by destruct (negb (bool_decide (num_str = ""))
               && negb (bool_decide (num_str = "-"))).
Qed.

(** X13.  [parseNumber] throws exactly when the timeout is negative, and
    then the world is as it was. *)
Theorem parseNumber_throws_iff (T : Z) (w : World) :
  ((T < 0)%Z ↔ ∃ msg w', parseNumber T w = Throws msg w') ∧
  (∀ msg w', parseNumber T w = Throws msg w' → w' = w).
Proof.
  unfold parseNumber. destruct (T <? 0)%Z eqn:E.
  - apply Z.ltb_lt in E. split; [|by intros msg w' [= _ ->]].
    split; [eauto|done].
  - apply Z.ltb_ge in E.
    assert (Hno : ∀ msg w',
      match clock w with
      | [] => Pending
      | now :: clk => Parse.poll (now + T) "" clk (rx w)
      end ≠ Throws msg w').
    { intros msg w'. destruct (clock w); [done|].
      apply parse_poll_never_throws. }
    split.
    + split; [lia|]. intros (msg & w' & H). by apply Hno in H.
    + intros msg w' H. by apply Hno in H.
Qed.

(** X14.  [parseNumber] never returns a number from its first read: when
    the clock reading after the first read is at or past the deadline (as
    with timeout 0 and a clock that does not run backwards), the call
    returns NaN, whatever that read brought. *)
Theorem parseNumber_first_read_nan (T now t1 : Z) (clk : list Z)
    (data : list byte) (reads : list (list byte)) :
  (0 ≤ T)%Z → (now + T ≤ t1)%Z →
  ∃ w', parseNumber T (mkWorld (now :: t1 :: clk) (data :: reads)) =
        Returns NaN w'.
Proof.
  intros HT Hlate. unfold parseNumber.
  apply Z.ltb_ge in HT as ->. apply Z.ltb_ge in Hlate.
  cbn [clock rx Parse.poll]. rewrite Hlate.
  destruct data as [|d0 data]; [eauto|].
  destruct (Parse.accepts "" (fromCharCode d0)); eauto.
Qed.

Lemma parseNumber_first_read_nan_witness :
  ∃ w', parseNumber 0 (mkWorld (7 :: 7 :: [8])%Z (fromUTF8 "5" :: [fromUTF8 "x"])) =
        Returns NaN w'.
Proof. apply parseNumber_first_read_nan; lia. Defined.

(** ** The command layer *)

Lemma multiFindUtil_valid_never_throws targets T w msg w' :
  targets ≠ [] → (0 ≤ T)%Z → multiFindUtil targets T w ≠ Throws msg w'.
Proof.
  intros Hne HT. unfold multiFindUtil.
  rewrite bool_decide_eq_false_2 by (by destruct targets).
  apply Z.ltb_ge in HT as ->. cbn [orb].
  destruct (clock w); [done|]. apply multi_poll_never_throws.
Qed.

Lemma multiFindUtil_on_scan targets T now clk data post later j :
  targets ≠ [] → (0 ≤ T)%Z →
  Multi.onData (fromUTF8 <$> targets)
    (replicate (length (fromUTF8 <$> targets)) 0) data = Done j →
  multiFindUtil targets T (mkWorld (now :: clk) ((data ++ post) :: later)) =
  Returns (Z.of_nat j) (mkWorld clk later).
Proof.
  intros Hne HT Hd. unfold multiFindUtil.
  rewrite bool_decide_eq_false_2 by (by destruct targets).
  apply Z.ltb_ge in HT as ->. cbn [orb clock rx Multi.poll].
  by rewrite multi_onData_app, Hd.
Qed.

(** X15.  [writeCommand] throws exactly when the command or the success
    target is empty or the timeout is negative; then nothing has been
    written and the world is as it was.  The check of [multiFindUtil]
    never fires under it. *)
Theorem writeCommand_throws_iff (command success_target : string) (T : Z)
    (tx : list string) (w : World) :
  ((command = "" ∨ success_target = "" ∨ (T < 0)%Z) ↔
   ∃ msg w', (writeCommand command success_target T tx w).1 = Throws msg w') ∧
  (∀ msg w',
     (writeCommand command success_target T tx w).1 = Throws msg w' →
     w' = w ∧ (writeCommand command success_target T tx w).2 = tx).
Proof.
  unfold writeCommand.
  destruct (bool_decide (command = "") || bool_decide (success_target = "")
            || (T <? 0)%Z) eqn:E.
  - split; [|by intros msg w' [= _ ->]]. split; [simpl; eauto|]. intros _.
    apply orb_true_iff in E as [E|E]; [apply orb_true_iff in E as [E|E]|].
    + left. by apply bool_decide_eq_true in E.
    + right. left. by apply bool_decide_eq_true in E.
    + right. right. by apply Z.ltb_lt.
  - apply orb_false_iff in E as [E E3]. apply orb_false_iff in E as [E1 E2].
    apply bool_decide_eq_false in E1, E2. apply Z.ltb_ge in E3.
    assert (Hno : ∀ msg w',
      match multiFindUtil (commandTargets success_target) T w with
      | Returns r w0 => Returns (bool_decide (r = 0%Z)) w0
      | Throws msg0 w0 => Throws msg0 w0
      | Pending => Pending
      end ≠ Throws msg w').
    { intros msg w'.
      destruct (multiFindUtil (commandTargets success_target) T w)
        as [r w0|msg0 w0|] eqn:Hm; [done| |done].
      by apply multiFindUtil_valid_never_throws in Hm. }
    cbn [fst snd]. split.
    + split.
      * intros [->|[->|Hneg]]; [done|done|lia].
      * intros (msg & w' & H). by apply Hno in H.
    + intros msg w' H. by apply Hno in H.
Qed.

Section WriteCommand.
Variables (command success_target : string) (T now : Z).
Hypothesis Hcommand : command ≠ "".
Hypothesis Hsuccess : success_target ≠ "".
Hypothesis HT : (0 ≤ T)%Z.

Lemma failureTargets_nonempty F : F ∈ failureTargets → F ≠ "".
Proof.
  intros HF ->. apply list_elem_of_In in HF. simpl in HF.
  destruct HF as [HF|[HF|[]]]; vm_compute in HF; discriminate.
Qed.

(** The scan of an answer that is one of the targets: which index is
    reported. *)
Lemma command_scan_success :
  (∀ F, F ∈ failureTargets →
        ¬ fromUTF8 F `sublist_of` fromUTF8 success_target) →
  Multi.onData (fromUTF8 <$> commandTargets success_target)
    (replicate (length (fromUTF8 <$> commandTargets success_target)) 0)
    (fromUTF8 success_target) = Done 0.
Proof.
  intros Hapart.
  destruct (multi_scan_in_order (fromUTF8 <$> commandTargets success_target)
              0 (fromUTF8 success_target) (fromUTF8 success_target))
    as (i & _ & Hd); [done|by apply fromUTF8_nonempty|done|].
  pose proof (multi_onData_sound (fromUTF8 <$> commandTargets success_target)
                (fromUTF8 success_target) _ []
                (length_replicate _ _) (multi_start_sound _)) as Hs.
  rewrite Hd in Hs. destruct Hs as (t & Ht & Hne & Hsub).
  destruct i as [|i]; [exact Hd|]. exfalso.
  destruct (fromUTF8_lookup _ _ _ Ht Hne) as (F & HF & _ & ->).
  apply (Hapart F); [|exact Hsub].
  by apply list_elem_of_lookup_2 with i.
Qed.

Lemma command_scan_failure F :
  F ∈ failureTargets →
  ¬ fromUTF8 success_target `sublist_of` fromUTF8 F →
  ∃ i, Multi.onData (fromUTF8 <$> commandTargets success_target)
         (replicate (length (fromUTF8 <$> commandTargets success_target)) 0)
         (fromUTF8 F) = Done (S i).
Proof.
  intros HF Hapart.
  apply list_elem_of_lookup_1 in HF as Hidx. destruct Hidx as [n Hn].
  destruct (multi_scan_in_order (fromUTF8 <$> commandTargets success_target)
              (S n) (fromUTF8 F) (fromUTF8 F))
    as (i & _ & Hd);
    [by rewrite list_lookup_fmap; simpl; rewrite Hn
    |by apply fromUTF8_nonempty, failureTargets_nonempty|done|].
  pose proof (multi_onData_sound (fromUTF8 <$> commandTargets success_target)
                (fromUTF8 F) _ []
                (length_replicate _ _) (multi_start_sound _)) as Hs.
  rewrite Hd in Hs. destruct Hs as (t & Ht & Hne & Hsub).
  destruct i as [|i]; [|by exists i]. exfalso.
  simpl in Ht. injection Ht as <-. done.
Qed.

Lemma writeCommand_on_scan tx clk data post later j :
  Multi.onData (fromUTF8 <$> commandTargets success_target)
    (replicate (length (fromUTF8 <$> commandTargets success_target)) 0)
    data = Done j →
  writeCommand command success_target T tx
    (mkWorld (now :: clk) ((data ++ post) :: later)) =
  (Returns (bool_decide (j = 0)) (mkWorld clk later),
   tx ++ [command +:+ CRLF]).
Proof.
  intros Hd. unfold writeCommand.
  rewrite !bool_decide_eq_false_2 by done.
  apply Z.ltb_ge in HT as HT'. rewrite HT'. cbn [orb].
  rewrite (multiFindUtil_on_scan _ T now clk data post later j); [|done|done|done].
  f_equal. f_equal. apply bool_decide_ext. lia.
Qed.
Lemma writeCommand_success tx clk post later :
  (∀ F, F ∈ failureTargets →
        ¬ fromUTF8 F `sublist_of` fromUTF8 success_target) →
  writeCommand command success_target T tx
    (mkWorld (now :: clk) ((fromUTF8 success_target ++ post) :: later)) =
  (Returns true (mkWorld clk later), tx ++ [command +:+ CRLF]).
Proof.
  intros Hapart.
  by rewrite (writeCommand_on_scan tx clk _ post later 0
                (command_scan_success Hapart)).
Qed.

Lemma writeCommand_failure F tx clk post later :
  F ∈ failureTargets →
  ¬ fromUTF8 success_target `sublist_of` fromUTF8 F →
  writeCommand command success_target T tx
    (mkWorld (now :: clk) ((fromUTF8 F ++ post) :: later)) =
  (Returns false (mkWorld clk later), tx ++ [command +:+ CRLF]).
Proof.
  intros HF Hapart.
  destruct (command_scan_failure F HF Hapart) as [i Hd].
  by rewrite (writeCommand_on_scan tx clk _ post later (S i) Hd).
Qed.
End WriteCommand.

(** X16.  A valid [writeCommand] whose answer starts with the success
    target returns true from that read, having written the command and a
    line end once, provided neither failure answer is a subsequence of the
    success target. *)
Theorem writeCommand_success_first (command success_target : string)
    (T now : Z) (tx : list string) (clk : list Z) (post : list byte)
    (later : list (list byte)) :
  command ≠ "" → success_target ≠ "" → (0 ≤ T)%Z →
  (∀ F, F ∈ failureTargets →
        ¬ fromUTF8 F `sublist_of` fromUTF8 success_target) →
  writeCommand command success_target T tx
    (mkWorld (now :: clk) ((fromUTF8 success_target ++ post) :: later)) =
  (Returns true (mkWorld clk later), tx ++ [command +:+ CRLF]).
Proof.
  intros Hc Hs HT Hapart. by apply writeCommand_success.
Qed.

Lemma writeCommand_success_first_witness :
  writeCommand "AT" okTarget 100 []
    (mkWorld (0 :: [1])%Z ((fromUTF8 okTarget ++ fromUTF8 "x") :: [])) =
  (Returns true (mkWorld [1]%Z []), [] ++ ["AT" +:+ CRLF]).
Proof.
  apply (writeCommand_success_first "AT" okTarget 100 0 [] [1]%Z
           (fromUTF8 "x") []).
  - discriminate.
  - discriminate.
  - lia.
  - intros F HF Hsub. apply list_elem_of_In in HF. simpl in HF.
    apply in_order_sublist in Hsub.
    destruct HF as [<-|[<-|[]]]; vm_compute in Hsub; discriminate.
Defined.

(** X17.  A valid [writeCommand] whose answer starts with one of the two
    failure answers returns false from that read, without waiting for the
    deadline, provided the success target is not a subsequence of that
    answer. *)
Theorem writeCommand_failure_first (command success_target F : string)
    (T now : Z) (tx : list string) (clk : list Z) (post : list byte)
    (later : list (list byte)) :
  command ≠ "" → success_target ≠ "" → (0 ≤ T)%Z →
  F ∈ failureTargets →
  ¬ fromUTF8 success_target `sublist_of` fromUTF8 F →
  writeCommand command success_target T tx
    (mkWorld (now :: clk) ((fromUTF8 F ++ post) :: later)) =
  (Returns false (mkWorld clk later), tx ++ [command +:+ CRLF]).
Proof.
  intros Hc Hs HT HF Hapart. by apply writeCommand_failure.
Qed.

Lemma writeCommand_failure_first_witness :
  writeCommand "AT" okTarget 100 []
    (mkWorld (0 :: [1])%Z
       ((fromUTF8 (CRLF +:+ "ERROR" +:+ CRLF) ++ fromUTF8 "x") :: [])) =
  (Returns false (mkWorld [1]%Z []), [] ++ ["AT" +:+ CRLF]).
Proof.
  apply (writeCommand_failure_first "AT" okTarget
           (CRLF +:+ "ERROR" +:+ CRLF) 100 0 [] [1]%Z (fromUTF8 "x") []).
  - discriminate.
  - discriminate.
  - lia.
  - apply list_elem_of_In. simpl. tauto.
  - intros Hsub. apply in_order_sublist in Hsub.
    vm_compute in Hsub. discriminate.
Defined.

Lemma okTarget_apart :
  okTarget ≠ "" ∧
  (∀ F, F ∈ failureTargets → ¬ fromUTF8 F `sublist_of` fromUTF8 okTarget) ∧
  (∀ F, F ∈ failureTargets → ¬ fromUTF8 okTarget `sublist_of` fromUTF8 F).
Proof.
  split; [discriminate|]. split.
  - intros F HF Hsub. apply list_elem_of_In in HF. simpl in HF.
    apply in_order_sublist in Hsub.
    destruct HF as [<-|[<-|[]]]; vm_compute in Hsub; discriminate.
  - intros F HF Hsub. apply list_elem_of_In in HF. simpl in HF.
    apply in_order_sublist in Hsub.
    destruct HF as [<-|[<-|[]]]; vm_compute in Hsub; discriminate.
Qed.

(** X18.  [wifiConnect], for every SSID and password, the empty ones
    included, passes the argument check of [writeCommand].  When the
    answer starts with "\r\nOK\r\n" it returns, and when it starts with
    "\r\nERROR\r\n" or "busy p...\r\n" it throws the connection error;
    either way it has written [AT+CWJAP="ssid","password"] and a line end
    once, and the rest of the read that held the answer is gone. *)
Theorem wifiConnect_outcomes (ssid password : string) (now : Z)
    (tx : list string) (clk : list Z) (post : list byte)
    (later : list (list byte)) :
  wifiConnect ssid password tx
    (mkWorld (now :: clk) ((fromUTF8 okTarget ++ post) :: later)) =
  (Returns tt (mkWorld clk later),
   tx ++ [("AT+CWJAP=" +:+ quote +:+ ssid +:+ quote +:+ ","
           +:+ quote +:+ password +:+ quote) +:+ CRLF]) ∧
  (∀ F, F ∈ failureTargets →
     wifiConnect ssid password tx
       (mkWorld (now :: clk) ((fromUTF8 F ++ post) :: later)) =
     (Throws "Error: WiFi connection failed." (mkWorld clk later),
      tx ++ [("AT+CWJAP=" +:+ quote +:+ ssid +:+ quote +:+ ","
              +:+ quote +:+ password +:+ quote) +:+ CRLF])).
Proof.
  destruct okTarget_apart as (Hok & Hfs & Hsf).
  assert (Hcmd : "AT+CWJAP=" +:+ quote +:+ ssid +:+ quote +:+ ","
                 +:+ quote +:+ password +:+ quote ≠ "") by discriminate.
  unfold wifiConnect. split.
  - by rewrite writeCommand_success.
  - intros F HF.
    by rewrite (writeCommand_failure _ okTarget 15000 now Hcmd Hok
                  ltac:(lia) F); auto.
Qed.

(** X19.  [mqttDisconnect] returns when the answer starts with
    "\r\nOK\r\n" and throws the disconnect error when it starts with
    "\r\nERROR\r\n" or "busy p...\r\n"; either way it has written
    "AT+MQTTCLEAN=0" and a line end once. *)
Theorem mqttDisconnect_outcomes (now : Z) (tx : list string) (clk : list Z)
    (post : list byte) (later : list (list byte)) :
  mqttDisconnect tx
    (mkWorld (now :: clk) ((fromUTF8 okTarget ++ post) :: later)) =
  (Returns tt (mkWorld clk later), tx ++ ["AT+MQTTCLEAN=0" +:+ CRLF]) ∧
  (∀ F, F ∈ failureTargets →
     mqttDisconnect tx
       (mkWorld (now :: clk) ((fromUTF8 F ++ post) :: later)) =
     (Throws "Error: MQTT disconnect failed." (mkWorld clk later),
      tx ++ ["AT+MQTTCLEAN=0" +:+ CRLF])).
Proof.
  destruct okTarget_apart as (Hok & Hfs & Hsf).
  unfold mqttDisconnect. split.
  - by rewrite writeCommand_success.
  - intros F HF.
    by rewrite (writeCommand_failure "AT+MQTTCLEAN=0" okTarget 500 now
                  ltac:(discriminate) Hok ltac:(lia) F); auto.
Qed.

(** X20.  [cancelSend] returns only if the reply "\r\nSEND Canceled\r\n"
    lies contiguously in the bytes of the reads it made, having written
    "+++" only.  When it throws, the reply does not lie in the bytes read
    up to the deadline, the error is the cancel error (never that of the
    argument check of [singleFindUtil]), a line end has been written after
    "+++", and one more serial read has been taken and dropped. *)
Theorem cancelSend_verdict (tx : list string) (w : World) :
  match cancelSend tx w with
  | (Returns _ w', tx') =>
      tx' = tx ++ ["+++"] ∧
      ∃ k, k < length (rx w) ∧ rx w' = drop (S k) (rx w) ∧
        occurs (fromUTF8 cancelReply) (concat (take (S k) (rx w)))
  | (Throws msg w', tx') =>
      msg = "Error: module cancel send failed." ∧
      tx' = (tx ++ ["+++"]) ++ [CRLF] ∧
      ∃ k, S k < length (rx w) ∧ rx w' = drop (S (S k)) (rx w) ∧
        ¬ occurs (fromUTF8 cancelReply) (concat (take (S k) (rx w)))
  | (Pending, _) => True
  end.
Proof.
  unfold cancelSend.
  destruct (singleFindUtil cancelReply 500 w) as [found w1|msg w1|] eqn:Hfind;
    [| |done].
  - destruct (single_returns _ _ _ _ _ Hfind) as (k & Hk & Hrx & Hv).
    destruct found; cbn [negb].
    + split; [done|]. by exists k.
    + destruct Hv as [Hnot _].
      destruct (rx w1) as [|data reads'] eqn:Hrx1; [done|].
      split; [done|]. split; [done|]. exists k. cbn [rx].
      assert (Hlen : length (data :: reads') = length (rx w) - S k).
      { by rewrite Hrx, length_drop. }
      simpl in Hlen. split; [lia|]. split; [|done].
      pose proof (drop_drop (rx w) 1 (S k)) as Hdd.
      rewrite <- Hrx in Hdd. simpl in Hdd. rewrite drop_0 in Hdd.
      rewrite Hdd. f_equal. lia.
  - exfalso. unfold singleFindUtil in Hfind. simpl in Hfind.
    destruct (clock w); [done|]. by apply single_poll_never_throws in Hfind.
Qed.

(** Both outcomes of [cancelSend] on concrete reads: the reply comes, and
    it does not come before the deadline. *)
Lemma cancelSend_examples :
  cancelSend []
    (mkWorld [0; 1]%Z [fromUTF8 cancelReply ++ fromUTF8 "x"; fromUTF8 "y"])
  = (Returns tt (mkWorld [1]%Z [fromUTF8 "y"]), ["+++"]) ∧
  cancelSend []
    (mkWorld [0; 500; 501]%Z [fromUTF8 "busy"; fromUTF8 "left"; fromUTF8 "y"])
  = (Throws "Error: module cancel send failed."
       (mkWorld [501]%Z [fromUTF8 "y"]), ["+++"; CRLF]).
Proof. split; vm_compute; reflexivity. Qed.
